(** * AsyncBearerTokenCredentialPolicy
    (sdk/core/corehttp/corehttp/runtime/policies/_authentication_async.py)

    A shallow embedding of the asynchronous bearer-token policy of corehttp
    and the properties of it that the design document states.

    One coroutine is run at a time: a call of [on_request],
    [authorize_request] or [send] runs from its first statement to its
    return or raise.  What the policy does to the outside (reading the
    clock, taking and releasing its lock, asking the credential for a token,
    forwarding to the next policy) is recorded, in order, in a trace.

    Calls that overlap are tasks of one event loop: each runs from one
    [await] that can suspend it (the lock, the credential, the next policy)
    to the next, in the order of a schedule.  A task resumed alone does what
    the call does when run from its first statement to its end.

    [time.time()] is a float in Python; times are exact rationals here. *)

From Stdlib Require Import ZArith QArith Lia Lqa.
From stdpp Require Import base strings list gmap.

Set Default Proof Using "Type".
Set Warnings "-clear-no-such-hyp".
Local Open Scope string_scope.
Local Open Scope list_scope.

(** ** Data *)

(** A flow descriptor, [dict[str, Union[str, list[dict[str, str]]]]]. *)
Inductive FlowField :=
| FlowStr (s : string)
| FlowList (l : list (gmap string string)).

Abbreviation FlowDescriptor := (gmap string FlowField).

(** The type of the [auth_flows] arguments and attributes,
    [Optional[list[dict[...]]]]. *)
Abbreviation AuthFlows := (option (list FlowDescriptor)).

(** Values of keyword arguments and of [TokenRequestOptions] entries. *)
Inductive PyValue :=
| PyNone
| PyBool (b : bool)
| PyStr (s : string)
| PyFlows (l : list FlowDescriptor).

Abbreviation TokenRequestOptions := (gmap string PyValue).

(** [corehttp.credentials.AccessTokenInfo]: the fields the policy reads. *)
Record AccessTokenInfo := {
  token : string;
  expires_on : Z;
  refresh_on : option Z
}.

Record HttpRequest := {
  url : string;
  headers : gmap string string
}.

(** [request.context.options]: the per-call options bag.  The policy reads
    the entry [auth_flows] only; entries carry values of that type. *)
Record PipelineContext := {
  options : gmap string AuthFlows
}.

Record PipelineRequest := {
  http_request : HttpRequest;
  context : PipelineContext
}.

Record HttpResponse := {
  status_code : Z;
  response_headers : gmap string string
}.

Record PipelineResponse := {
  http_response : HttpResponse
}.

(** The lock [get_running_async_lock()] returns. *)
Inductive AsyncLock := RunningAsyncLock.

(** The attributes [__init__] sets, but for [_credential], which is part of
    the environment below. *)
Record Policy := {
  _lock_instance : option AsyncLock;
  _scopes : list string;
  _token : option AccessTokenInfo;
  _auth_flows : AuthFlows
}.

(** [AsyncBearerTokenCredentialPolicy(credential, *scopes, auth_flows=...)] *)
Definition __init__ (scopes : list string) (auth_flows : AuthFlows) : Policy :=
  {| _lock_instance := None;
     _scopes := scopes;
     _token := None;
     _auth_flows := auth_flows |}.

(** ** Effects *)

(** What a call does to the outside, in the order it does it. *)
Inductive Event :=
| EvLockCreated
| EvAcquire
| EvRelease
| EvGetTokenInfo (scopes : list string) (opts : TokenRequestOptions)
| EvSetToken (v : option AccessTokenInfo)
| EvNextSend (r : PipelineRequest)
| EvOnResponse
| EvOnException
| EvOnChallenge.

(** What the next policy raises: an instance of [Exception], or a
    [BaseException] that is not one, such as [asyncio.CancelledError],
    [KeyboardInterrupt] or [SystemExit]. *)
Inductive Raise :=
| ExceptionRaised (reason : string)
| BaseExceptionRaised (reason : string).

(** Exceptions, named by where they are raised: [ServiceRequestError] by
    [_enforce_https], [AttributeError] by reading [.token] of [None],
    [CredentialError] by the credential, [NextPolicyError] by the next
    policy, [HookError] by an overridden hook.  The class of what the next
    policy raises is kept, since [send] catches [Exception] only; no other
    raise of these is made inside a [try]. *)
Inductive Exn :=
| ServiceRequestError
| AttributeError
| CredentialError (reason : string)
| NextPolicyError (reason : Raise)
| HookError (reason : string).

(** [isinstance(e, Exception)] *)
Definition is_Exception (e : Exn) : bool :=
  match e with
  | NextPolicyError (BaseExceptionRaised _) => false
  | _ => true
  end.

Inductive Outcome (A : Type) :=
| Returned (a : A)
| Raised (e : Exn).
Arguments Returned {A} a.
Arguments Raised {A} e.

(** The policy object, the request object the call was given (both are
    mutated in place), the trace, and the number of clock reads so far. *)
Record World := {
  self : Policy;
  request : PipelineRequest;
  trace : list Event;
  ticks : nat
}.

Definition is_fetch (e : Event) : bool :=
  match e with EvGetTokenInfo _ _ => true | _ => false end.

Definition is_forward (e : Event) : bool :=
  match e with EvNextSend _ => true | _ => false end.

(** Number of calls of [get_token_info] and of [next.send] in a trace. *)
Definition fetches (tr : list Event) : nat := length (List.filter is_fetch tr).
Definition forwards (tr : list Event) : nat := length (List.filter is_forward tr).

(** The collaborators of the policy.  The credential and the next policy may
    answer differently from one call to the next: they are indexed by the
    number of earlier calls. *)
Record Env := {
  (** [time.time()], by number of earlier reads *)
  clock : nat -> Q;
  (** [self._credential.get_token_info], given the scopes and the options *)
  get_token_info : nat -> list string -> TokenRequestOptions -> string + AccessTokenInfo;
  (** [self.next.send(request)] *)
  next_send : nat -> PipelineRequest -> Raise + PipelineResponse;
  (** whether the target of a request is a secure transport *)
  secure_transport : HttpRequest -> bool;
  (** [TokenRequestOptions.__annotations__] *)
  TokenRequestOptions_annotations : list string
}.

(** A state and exception monad over [World]. *)
Definition M (A : Type) : Type := World -> Outcome A * World.

Definition ret {A} (a : A) : M A := fun w => (Returned a, w).

Definition bind {A B} (m : M A) (k : A -> M B) : M B :=
  fun w =>
    match m w with
    | (Returned a, w') => k a w'
    | (Raised e, w') => (Raised e, w')
    end.

Definition raise {A} (e : Exn) : M A := fun w => (Raised e, w).

Declare Scope policy_scope.
Delimit Scope policy_scope with policy.
Notation "x <- m ;; k" := (bind m (fun x => k))
  (at level 100, m at next level, right associativity) : policy_scope.
Notation "m ;;; k" := (bind m (fun _ => k))
  (at level 100, right associativity) : policy_scope.
Local Open Scope policy_scope.

(** [try: m  except Exception: handler; raise]: what is not an
    [Exception] is not caught. *)
Definition try_except_reraise {A} (m : M A) (handler : M unit) : M A :=
  fun w =>
    match m w with
    | (Returned a, w') => (Returned a, w')
    | (Raised e, w') =>
        if is_Exception e then
          match handler w' with
          | (Returned _, w'') => (Raised e, w'')
          | (Raised e', w'') => (Raised e', w'')
          end
        else (Raised e, w')
    end.

(** [try: m  finally: final] *)
Definition try_finally {A} (m : M A) (final : M unit) : M A :=
  fun w =>
    match m w with
    | (Returned a, w') =>
        match final w' with
        | (Returned _, w'') => (Returned a, w'')
        | (Raised e', w'') => (Raised e', w'')
        end
    | (Raised e, w') =>
        match final w' with
        | (Returned _, w'') => (Raised e, w'')
        | (Raised e', w'') => (Raised e', w'')
        end
    end.

Definition get_self : M Policy := fun w => (Returned (self w), w).
Definition get_request : M PipelineRequest := fun w => (Returned (request w), w).

Definition emit (e : Event) : M unit :=
  fun w => (Returned tt,
            {| self := self w; request := request w;
               trace := trace w ++ [e]; ticks := ticks w |}).

Definition put_self (p : Policy) : M unit :=
  fun w => (Returned tt,
            {| self := p; request := request w;
               trace := trace w; ticks := ticks w |}).

Definition put_request (r : PipelineRequest) : M unit :=
  fun w => (Returned tt,
            {| self := self w; request := r;
               trace := trace w; ticks := ticks w |}).

Definition Qlt_bool (x y : Q) : bool := negb (Qle_bool y x).

(** The value of the property [_need_new_token] (lines 179-186) for a cached
    token and a reading of the clock.  An [AccessTokenInfo] object is truthy,
    so [not self._token] holds of [None] only. *)
Definition need_new_token_at (tok : option AccessTokenInfo) (now : Q) : bool :=
  match tok with
  | None => true
  | Some t =>
      match refresh_on t with
      | Some r => Qle_bool (inject_Z r) now
      | None => false
      end
      || Qlt_bool (inject_Z (expires_on t) - now) 300
  end.

Arguments need_new_token_at : simpl never.

(** The methods a subclass overrides. *)
Class Hooks := {
  on_challenge : PipelineResponse -> M bool;
  on_response : PipelineResponse -> M unit;
  on_exception : M unit
}.

(** ** The policy *)

Section Policy.

Context (env : Env).

(** [time.time()] *)
Definition time_time : M Q :=
  fun w => (Returned (clock env (ticks w)),
            {| self := self w; request := request w;
               trace := trace w; ticks := S (ticks w) |}).

(** [self._token = v] *)
Definition set_token (v : option AccessTokenInfo) : M unit :=
  p <- get_self ;;
  put_self {| _lock_instance := _lock_instance p; _scopes := _scopes p;
              _token := v; _auth_flows := _auth_flows p |} ;;;
  emit (EvSetToken v).

(** [request.http_request.headers[key] = value] *)
Definition set_header (key value : string) : M unit :=
  r <- get_request ;;
  put_request
    {| http_request := {| url := url (http_request r);
                          headers := <[key := value]> (headers (http_request r)) |};
       context := context r |}.

(** [request.context.options.pop(key, None)] *)
Definition pop_option (key : string) : M AuthFlows :=
  r <- get_request ;;
  match options (context r) !! key with
  | Some v =>
      put_request {| http_request := http_request r;
                     context := {| options := delete key (options (context r)) |} |} ;;;
      ret v
  | None => ret None
  end.

(** [await await_result(self._credential.get_token_info, ...)] *)
Definition credential_get_token_info
    (scopes : list string) (opts : TokenRequestOptions) : M AccessTokenInfo :=
  fun w =>
    let w' := {| self := self w; request := request w;
                 trace := trace w ++ [EvGetTokenInfo scopes opts];
                 ticks := ticks w |} in
    match get_token_info env (fetches (trace w)) scopes opts with
    | inr t => (Returned t, w')
    | inl reason => (Raised (CredentialError reason), w')
    end.

(** [await self.next.send(request)] *)
Definition self_next_send : M PipelineResponse :=
  fun w =>
    let w' := {| self := self w; request := request w;
                 trace := trace w ++ [EvNextSend (request w)];
                 ticks := ticks w |} in
    match next_send env (forwards (trace w)) (request w) with
    | inr r => (Returned r, w')
    | inl reason => (Raised (NextPolicyError reason), w')
    end.

(** The property [_lock] (lines 51-55). *)
Definition _lock : M AsyncLock :=
  p <- get_self ;;
  match _lock_instance p with
  | None =>
      emit EvLockCreated ;;;
      put_self {| _lock_instance := Some RunningAsyncLock; _scopes := _scopes p;
                  _token := _token p; _auth_flows := _auth_flows p |} ;;;
      ret RunningAsyncLock
  | Some l => ret l
  end.

(** [async with self._lock: body] *)
Definition async_with_lock {A} (body : M A) : M A :=
  _lock ;;;
  emit EvAcquire ;;;
  try_finally body (emit EvRelease).

(** The property [_need_new_token] (lines 179-186). *)
Definition _need_new_token : M bool :=
  now <- time_time ;;
  p <- get_self ;;
  ret (need_new_token_at (_token p) now).

(** [self._token is None or self._need_new_token] (lines 76 and 79): the
    property, and with it the clock, is read only when a token is cached. *)
Definition token_is_None_or_need_new_token : M bool :=
  p <- get_self ;;
  match _token p with
  | None => ret true
  | Some _ => _need_new_token
  end.

(** Modelled from the spec: [_BearerTokenCredentialPolicyBase._enforce_https]
    of [_authentication.py], which is not among the sources: "enforce that
    the request's target is a secure transport; fail with a
    transport-security error if not". *)
Definition _enforce_https : M unit :=
  r <- get_request ;;
  if secure_transport env (http_request r) then ret tt
  else raise ServiceRequestError.

(** [cast(AccessTokenInfo, self._token).token] *)
Definition self_token_token : M string :=
  p <- get_self ;;
  match _token p with
  | Some t => ret (token t)
  | None => raise AttributeError
  end.

(** [on_request] (lines 57-82). *)
Definition on_request (auth_flows : AuthFlows) : M unit :=
  if match auth_flows with
     | Some l => Nat.eqb (length l) 0
     | None => false
     end
  then ret tt
  else
    _enforce_https ;;;
    stale <- token_is_None_or_need_new_token ;;
    (if stale then
       async_with_lock
         (stale' <- token_is_None_or_need_new_token ;;
          if stale' then
            let opts : TokenRequestOptions :=
              match auth_flows with
              | Some (f :: l) => {[ "auth_flows" := PyFlows (f :: l) ]}
              | _ => ∅
              end in
            p <- get_self ;;
            t <- credential_get_token_info (_scopes p) opts ;;
            set_token (Some t)
          else ret tt)
     else ret tt) ;;;
    tok <- self_token_token ;;
    set_header "Authorization" ("Bearer " +:+ tok).

(** The loop of [authorize_request] (lines 93-97): the keyword arguments
    that are keys of [TokenRequestOptions] are moved to [options]. *)
Definition authorize_request_options
    (kwargs : gmap string PyValue) : TokenRequestOptions * gmap string PyValue :=
  foldl
    (fun '(opts, kw) key =>
       if bool_decide (key ∈ TokenRequestOptions_annotations env) then
         match kw !! key with
         | Some v => (<[key := v]> opts, delete key kw)
         | None => (opts, kw)
         end
       else (opts, kw))
    (∅, kwargs)
    (map_to_list kwargs).*1.

(** [authorize_request] (lines 84-101). *)
Definition authorize_request
    (scopes : list string) (kwargs : gmap string PyValue) : M unit :=
  let opts := fst (authorize_request_options kwargs) in
  async_with_lock
    (t <- credential_get_token_info scopes opts ;;
     set_token (Some t)) ;;;
  tok <- self_token_token ;;
  set_header "Authorization" ("Bearer " +:+ tok).

Context `{hooks : Hooks}.

(** Lines 113-115 of [send]: the flows of the call, then [on_request]. *)
Definition send_authorize : M unit :=
  op_auth_flows <- pop_option "auth_flows" ;;
  p <- get_self ;;
  let auth_flows :=
    match op_auth_flows with
    | Some l => Some l
    | None => _auth_flows p
    end in
  on_request auth_flows.

(** Lines 116-121 of [send], and again lines 128-133: forward to the next
    policy, call [on_exception] and raise again if that raises, call
    [on_response] if it returns. *)
Definition forward : M PipelineResponse :=
  response <- try_except_reraise self_next_send
                (emit EvOnException ;;; on_exception) ;;
  emit EvOnResponse ;;;
  on_response response ;;;
  ret response.

(** Lines 123-135 of [send]: what is done with the first response. *)
Definition handle_response (response : PipelineResponse) : M PipelineResponse :=
  if Z.eqb (status_code (http_response response)) 401 then
    set_token None ;;;
    if bool_decide ("WWW-Authenticate" ∈ dom (response_headers (http_response response)))
    then
      emit EvOnChallenge ;;;
      request_authorized <- on_challenge response ;;
      if request_authorized then forward else ret response
    else ret response
  else ret response.

(** [send] (lines 103-135). *)
Definition send : M PipelineResponse :=
  op_auth_flows <- pop_option "auth_flows" ;;
  p <- get_self ;;
  let auth_flows :=
    match op_auth_flows with
    | Some l => Some l
    | None => _auth_flows p
    end in
  on_request auth_flows ;;;
  response <- try_except_reraise self_next_send
                (emit EvOnException ;;; on_exception) ;;
  emit EvOnResponse ;;;
  on_response response ;;;
  if Z.eqb (status_code (http_response response)) 401 then
    set_token None ;;;
    if bool_decide ("WWW-Authenticate" ∈ dom (response_headers (http_response response)))
    then
      emit EvOnChallenge ;;;
      request_authorized <- on_challenge response ;;
      if request_authorized then
        response' <- try_except_reraise self_next_send
                       (emit EvOnException ;;; on_exception) ;;
        emit EvOnResponse ;;;
        on_response response' ;;;
        ret response'
      else ret response
    else ret response
  else ret response.

End Policy.

(** The hooks as the class defines them: [on_challenge] (lines 137-153)
    declines, [on_response] (155-166) and [on_exception] (168-177) do
    nothing. *)
#[export] Instance AsyncBearerTokenCredentialPolicy : Hooks := {|
  on_challenge := fun _ => ret false;
  on_response := fun _ => ret tt;
  on_exception := ret tt
|}.

(** ** Notions the properties are stated with *)

(** What the spec calls [needsRefresh], as a proposition on the cached token
    and the time. *)
Definition needs_refresh (tok : option AccessTokenInfo) (now : Q) : Prop :=
  tok = None
  \/ exists t, tok = Some t
       /\ ((exists r, refresh_on t = Some r /\ (inject_Z r <= now)%Q)
           \/ (inject_Z (expires_on t) - now < 300)%Q).


(** [auth_flows] is a list and is empty: the opt-out of line 72. *)
Definition explicitly_empty (auth_flows : AuthFlows) : Prop := auth_flows = Some [].

#[global] Instance explicitly_empty_dec af : Decision (explicitly_empty af).
Proof. unfold explicitly_empty. destruct af as [[|]|]; (by left) || (by right). Defined.

(** The flows [send] gives to [on_request], in the words of the spec: the
    override of the options bag when there is one, the flows the policy was
    built with otherwise. *)
Definition effective_auth_flows (w : World) : AuthFlows :=
  match options (context (request w)) !! "auth_flows" with
  | Some (Some l) => Some l
  | _ => _auth_flows (self w)
  end.

(** The request without the entry [auth_flows] of its options bag. *)
Definition without_auth_flows_option (w : World) : World :=
  {| self := self w;
     request := {| http_request := http_request (request w);
                   context := {| options := delete "auth_flows"
                                              (options (context (request w))) |} |};
     trace := trace w; ticks := ticks w |}.

(** The options [on_request] gives to the credential (line 80). *)
Definition on_request_options (auth_flows : AuthFlows) : TokenRequestOptions :=
  match auth_flows with
  | Some (f :: l) => {[ "auth_flows" := PyFlows (f :: l) ]}
  | _ => ∅
  end.

(** Every write of the cached token in a trace is made between an acquire
    and the release after it; [held] says whether the lock is held at the
    start of the trace. *)
Fixpoint writes_guarded (held : bool) (tr : list Event) : bool :=
  match tr with
  | [] => true
  | EvAcquire :: tr' => writes_guarded true tr'
  | EvRelease :: tr' => writes_guarded false tr'
  | EvSetToken _ :: tr' => held && writes_guarded held tr'
  | _ :: tr' => writes_guarded held tr'
  end.

(** The same for the writes of a token only: [self._token = None] is left
    out. *)
Fixpoint stores_guarded (held : bool) (tr : list Event) : bool :=
  match tr with
  | [] => true
  | EvAcquire :: tr' => stores_guarded true tr'
  | EvRelease :: tr' => stores_guarded false tr'
  | EvSetToken (Some _) :: tr' => held && stores_guarded held tr'
  | _ :: tr' => stores_guarded held tr'
  end.

(** Whether the lock is held after a trace. *)
Fixpoint held_after (held : bool) (tr : list Event) : bool :=
  match tr with
  | [] => held
  | EvAcquire :: tr' => held_after true tr'
  | EvRelease :: tr' => held_after false tr'
  | _ :: tr' => held_after held tr'
  end.

(** The events a call added to the trace. *)
Definition new_events (w w' : World) : list Event :=
  drop (length (trace w)) (trace w').

(** A hook, or any computation, that leaves the number of events of one kind
    as it was. *)
Definition leaves_count {A} (kind : Event -> bool) (m : M A) : Prop :=
  forall w, length (List.filter kind (trace (snd (m w))))
            = length (List.filter kind (trace w)).

Definition hooks_leave_count (kind : Event -> bool) (h : Hooks) : Prop :=
  (forall r, leaves_count kind (on_challenge r))
  /\ (forall r, leaves_count kind (on_response r))
  /\ leaves_count kind on_exception.

(** A computation that adds at most [n] events of one kind. *)
Definition adds_at_most {A} (kind : Event -> bool) (n : nat) (m : M A) : Prop :=
  forall w, length (List.filter kind (trace (snd (m w))))
            <= length (List.filter kind (trace w)) + n.

(** *** Sequences of calls on one policy *)

Inductive Call :=
| CallOnRequest (r : PipelineRequest) (auth_flows : AuthFlows)
| CallSend (r : PipelineRequest).

Definition with_request (r : PipelineRequest) (w : World) : World :=
  {| self := self w; request := r; trace := trace w; ticks := ticks w |}.

(** One call, whether it returns or raises, and the world it leaves. *)
Definition run_call (env : Env) `{hooks : Hooks} (c : Call) (w : World) : World :=
  match c with
  | CallOnRequest r auth_flows => snd (on_request env auth_flows (with_request r w))
  | CallSend r => snd (send env (with_request r w))
  end.

Definition run_calls (env : Env) `{hooks : Hooks} (cs : list Call) (w : World) : World :=
  foldl (fun w c => run_call env c w) w cs.

(** ** A policy, its collaborators and a subclass, to run the definitions on *)

Module Demo.

Definition a_token : AccessTokenInfo :=
  {| token := "secret"; expires_on := 5000; refresh_on := None |}.

Definition a_request (target : string) (opts : gmap string AuthFlows) : PipelineRequest :=
  {| http_request := {| url := target; headers := ∅ |};
     context := {| options := opts |} |}.

Definition a_response (status : Z) (hdrs : gmap string string) : PipelineResponse :=
  {| http_response := {| status_code := status; response_headers := hdrs |} |}.

Definition ok : PipelineResponse := a_response 200 ∅.
Definition unauthorized : PipelineResponse := a_response 401 ∅.
Definition challenge : PipelineResponse :=
  a_response 401 {[ "WWW-Authenticate" := "Bearer" ]}.

Definition flow (name : string) : FlowDescriptor := {[ "type" := FlowStr name ]}.

(** The clock starts at 1000 and each reading is a second later; the
    credential always returns [a_token]; the next policy answers with
    [responses]; a target is secure when its URL starts with [https]. *)
Definition env (responses : nat -> PipelineResponse) : Env :=
  {| clock := fun n => inject_Z (1000 + Z.of_nat n);
     get_token_info := fun _ _ _ => inr a_token;
     next_send := fun n _ => inr (responses n);
     secure_transport := fun r => String.prefix "https" (url r);
     TokenRequestOptions_annotations :=
       ["claims"; "tenant_id"; "enable_cae"; "auth_flows"] |}.

Definition always (r : PipelineResponse) : nat -> PipelineResponse := fun _ => r.

(** The first answer is [first], the later ones are [ok]. *)
Definition first_then_ok (first : PipelineResponse) : nat -> PipelineResponse :=
  fun n => match n with O => first | S _ => ok end.

(** A new policy with the request of a call. *)
Definition start (auth_flows : AuthFlows) (r : PipelineRequest) : World :=
  {| self := __init__ ["https://example.org/.default"] auth_flows;
     request := r; trace := []; ticks := 0 |}.

Definition secure_request : PipelineRequest := a_request "https://example.org/" ∅.
Definition insecure_request : PipelineRequest := a_request "http://example.org/" ∅.

(** A new policy, built without flows, with [secure_request]. *)
Definition fresh_start : World := start None secure_request.

(** A policy that has [tok] in its cache, with [secure_request]. *)
Definition cached (tok : AccessTokenInfo) : World :=
  {| self := {| _lock_instance := Some RunningAsyncLock;
                _scopes := ["https://example.org/.default"];
                _token := Some tok;
                _auth_flows := None |};
     request := secure_request; trace := []; ticks := 0 |}.

(** A subclass whose [on_challenge] authorizes the request again and asks
    for it to be sent again. *)
Definition Reauthorizing (e : Env) : Hooks :=
  {| on_challenge := fun _ =>
       authorize_request e ["https://example.org/.default"] ∅ ;;; ret true;
     on_response := fun _ => ret tt;
     on_exception := ret tt |}.

End Demo.

(** ** Further notions *)

Definition is_lock_created (e : Event) : bool :=
  match e with EvLockCreated => true | _ => false end.

(** Number of locks created in a trace. *)
Definition lock_creations (tr : list Event) : nat :=
  length (List.filter is_lock_created tr).

(** The second request is the first one but, maybe, for its Authorization
    header. *)
Definition same_but_authorization (r r' : PipelineRequest) : Prop :=
  url (http_request r') = url (http_request r)
  /\ context r' = context r
  /\ forall key, key <> "Authorization" ->
       headers (http_request r') !! key = headers (http_request r) !! key.

(** The exceptions a call of the policy itself can raise. *)
Definition raised_by_authorization (e : Exn) : Prop :=
  e = ServiceRequestError \/ exists reason, e = CredentialError reason.

(** The time from which a cached token is renewed, and whether that time
    itself is included: the [refresh_on] of the token when it is at least
    300 seconds before [expires_on], 300 seconds before [expires_on]
    otherwise. *)
Definition renewal_time (t : AccessTokenInfo) : Z * bool :=
  match refresh_on t with
  | Some r => if (r <=? expires_on t - 300)%Z then (r, true)
              else ((expires_on t - 300)%Z, false)
  | None => ((expires_on t - 300)%Z, false)
  end.

(** From the first world to the second the scopes and the flows of the
    policy are the same, and its lock is the same, or was created, once,
    if there was none. *)
Definition keeps_setup (w w' : World) : Prop :=
  _scopes (self w') = _scopes (self w)
  /\ _auth_flows (self w') = _auth_flows (self w)
  /\ match _lock_instance (self w) with
     | Some l =>
         _lock_instance (self w') = Some l
         /\ lock_creations (trace w') = lock_creations (trace w)
     | None =>
         (_lock_instance (self w') = None
          /\ lock_creations (trace w') = lock_creations (trace w))
         \/ (_lock_instance (self w') = Some RunningAsyncLock
             /\ lock_creations (trace w') = lock_creations (trace w) + 1)
     end.

(** ** Calls that overlap *)

(** Calls of [on_request] and of [send] of the class on one policy run as
    tasks of one event loop.  A task runs until it has to wait: for the
    lock (line 77), for the answer of the credential (line 81) or for the
    answer of the next policy (line 117); then any task that can go on is
    resumed.  The stage of a task says where it waits. *)
Inductive Stage :=
| NotStarted
| WaitingForLock (auth_flows : AuthFlows)
| WaitingForToken (answer : string + AccessTokenInfo)
| WaitingForResponse (answer : Raise + PipelineResponse)
| Ended (o : Outcome (option PipelineResponse)).

Record Task := {
  task_call : Call;
  task_request : PipelineRequest;
  task_stage : Stage
}.

Definition new_task (c : Call) : Task :=
  {| task_call := c;
     task_request := match c with CallOnRequest r _ | CallSend r => r end;
     task_stage := NotStarted |}.

Section Overlap.

Context (env : Env).

(** The call of the credential, whose answer is awaited. *)
Definition credential_call
    (scopes : list string) (opts : TokenRequestOptions)
  : M (string + AccessTokenInfo) :=
  fun w => (Returned (get_token_info env (fetches (trace w)) scopes opts),
            {| self := self w; request := request w;
               trace := trace w ++ [EvGetTokenInfo scopes opts];
               ticks := ticks w |}).

(** The call of the next policy, whose answer is awaited. *)
Definition next_send_call : M (Raise + PipelineResponse) :=
  fun w => (Returned (next_send env (forwards (trace w)) (request w)),
            {| self := self w; request := request w;
               trace := trace w ++ [EvNextSend (request w)];
               ticks := ticks w |}).

(** [on_request] has returned: it was the call, or [send] goes on to line
    117. *)
Definition after_on_request (c : Call) : M Stage :=
  match c with
  | CallOnRequest _ _ => ret (Ended (Returned None))
  | CallSend _ => answer <- next_send_call ;; ret (WaitingForResponse answer)
  end.

(** Line 82, and back to the caller. *)
Definition write_header (c : Call) : M Stage :=
  tok <- self_token_token ;;
  set_header "Authorization" ("Bearer " +:+ tok) ;;;
  after_on_request c.

(** Lines 72-77 of [on_request], up to the wait for the lock. *)
Definition on_request_begins (c : Call) (auth_flows : AuthFlows) : M Stage :=
  if match auth_flows with
     | Some l => Nat.eqb (length l) 0
     | None => false
     end
  then after_on_request c
  else
    _enforce_https env ;;;
    stale <- token_is_None_or_need_new_token env ;;
    if stale then _lock ;;; ret (WaitingForLock auth_flows)
    else write_header c.

(** The call begins: lines 113-115 of [send], then [on_request]. *)
Definition call_begins (c : Call) : M Stage :=
  match c with
  | CallOnRequest _ auth_flows => on_request_begins c auth_flows
  | CallSend _ =>
      op_auth_flows <- pop_option "auth_flows" ;;
      p <- get_self ;;
      let auth_flows :=
        match op_auth_flows with
        | Some l => Some l
        | None => _auth_flows p
        end in
      on_request_begins c auth_flows
  end.

(** The lock is acquired: lines 77-81, up to the wait for the credential. *)
Definition lock_acquired (c : Call) (auth_flows : AuthFlows) : M Stage :=
  emit EvAcquire ;;;
  stale' <- token_is_None_or_need_new_token env ;;
  if stale' then
    p <- get_self ;;
    answer <- credential_call (_scopes p) (on_request_options auth_flows) ;;
    ret (WaitingForToken answer)
  else
    emit EvRelease ;;;
    write_header c.

(** The credential has answered: the rest of line 81, the release of the
    lock, line 82. *)
Definition credential_answered
    (c : Call) (answer : string + AccessTokenInfo) : M Stage :=
  try_finally
    match answer with
    | inr t => set_token (Some t)
    | inl reason => raise (CredentialError reason)
    end
    (emit EvRelease) ;;;
  write_header c.

(** The next policy has answered: lines 117-135 of [send], with the hooks
    of the class, whose [on_challenge] does not ask for a second sending. *)
Definition next_policy_answered (answer : Raise + PipelineResponse) : M Stage :=
  response <- try_except_reraise
                match answer with
                | inr r => ret r
                | inl reason => raise (NextPolicyError reason)
                end
                (emit EvOnException ;;;
                 on_exception (Hooks := AsyncBearerTokenCredentialPolicy)) ;;
  emit EvOnResponse ;;;
  on_response (Hooks := AsyncBearerTokenCredentialPolicy) response ;;;
  response' <- handle_response (hooks := AsyncBearerTokenCredentialPolicy)
                 env response ;;
  ret (Ended (Returned (Some response'))).

(** What a task does when it is resumed, up to its next wait. *)
Definition resume (c : Call) (s : Stage) : M Stage :=
  match s with
  | NotStarted => call_begins c
  | WaitingForLock auth_flows => lock_acquired c auth_flows
  | WaitingForToken answer => credential_answered c answer
  | WaitingForResponse answer => next_policy_answered answer
  | Ended o => ret (Ended o)
  end.

(** A call that raises has ended. *)
Definition run_block (c : Call) (s : Stage) (w : World) : Stage * World :=
  match resume c s w with
  | (Returned s', w') => (s', w')
  | (Raised e, w') => (Ended (Raised e), w')
  end.

(** Whether a task can be resumed: a task that waits for the lock can when
    the lock is free, a task that has ended cannot. *)
Definition can_resume (s : Stage) (w : World) : bool :=
  match s with
  | WaitingForLock _ => negb (held_after false (trace w))
  | Ended _ => false
  | _ => true
  end.

(** The policy with its trace and clock, shared, and the tasks, each with
    the request it was given. *)
Record Loop := {
  shared : World;
  tasks : list Task
}.

(** Task [i] is resumed, if there is one and it can be. *)
Definition resume_task (i : nat) (l : Loop) : Loop :=
  match tasks l !! i with
  | Some t =>
      if can_resume (task_stage t) (shared l) then
        let '(s', w') :=
          run_block (task_call t) (task_stage t)
            (with_request (task_request t) (shared l)) in
        {| shared := w';
           tasks := <[i := {| task_call := task_call t;
                              task_request := request w';
                              task_stage := s' |}]> (tasks l) |}
      else l
  | None => l
  end.

(** The tasks are resumed in the order of a schedule. *)
Definition run_schedule (schedule : list nat) (l : Loop) : Loop :=
  foldl (fun l i => resume_task i l) l schedule.

(** The calls are made, none has begun. *)
Definition calls_made (cs : list Call) (w : World) : Loop :=
  {| shared := w; tasks := new_task <$> cs |}.






End Overlap.








(** A clock that stands still at 1000, a credential that returns
    [Demo.a_token], good until 5000: every token stays fresh. *)
Module Steady.

Definition env (responses : nat -> PipelineResponse) : Env :=
  {| clock := fun _ => 1000%Q;
     get_token_info := get_token_info (Demo.env responses);
     next_send := next_send (Demo.env responses);
     secure_transport := secure_transport (Demo.env responses);
     TokenRequestOptions_annotations :=
       TokenRequestOptions_annotations (Demo.env responses) |}.

End Steady.

(** Collaborators that fail. *)
Module Faulty.

(** The credential raises; the rest is as in [Demo.env]. *)
Definition credential (responses : nat -> PipelineResponse) : Env :=
  {| clock := clock (Demo.env responses);
     get_token_info := fun _ _ _ => inl "credential unavailable";
     next_send := next_send (Demo.env responses);
     secure_transport := secure_transport (Demo.env responses);
     TokenRequestOptions_annotations :=
       TokenRequestOptions_annotations (Demo.env responses) |}.

(** The next policy raises; the rest is as in [Demo.env]. *)
Definition next_policy : Env :=
  {| clock := clock (Demo.env (Demo.always Demo.ok));
     get_token_info := get_token_info (Demo.env (Demo.always Demo.ok));
     next_send := fun _ _ => inl (ExceptionRaised "connection refused");
     secure_transport := secure_transport (Demo.env (Demo.always Demo.ok));
     TokenRequestOptions_annotations :=
       TokenRequestOptions_annotations (Demo.env (Demo.always Demo.ok)) |}.

End Faulty.

(** ** The refresh decision *)

Lemma Qlt_bool_iff (x y : Q) : Qlt_bool x y = true <-> (x < y)%Q.
Proof.
  unfold Qlt_bool. rewrite negb_true_iff. split.
  - intros Hle. apply Qnot_le_lt. intros Hyx.
    apply Qle_bool_iff in Hyx. congruence.
  - intros Hlt. destruct (Qle_bool y x) eqn:E; [|reflexivity].
    apply Qle_bool_iff in E. exfalso. exact (Qlt_not_le _ _ Hlt E).
Qed.

Lemma need_new_token_at_spec (tok : option AccessTokenInfo) (now : Q) :
  need_new_token_at tok now = true <-> needs_refresh tok now.
Proof.
  unfold need_new_token_at, needs_refresh.
  destruct tok as [t|]; [|by split; [left|]].
  rewrite orb_true_iff, Qlt_bool_iff. split.
  - intros [Hr|He]; right; exists t; split; try done.
    + left. destruct (refresh_on t) as [r|]; [|done].
      exists r. by rewrite <- Qle_bool_iff.
    + by right.
  - intros [|(t' & [= <-] & [(r & Hr & Hle)|He])]; [done| |by right].
    left. rewrite Hr. by apply Qle_bool_iff.
Qed.


(** C1.  The refresh decision of [on_request], [self._token is None or
    self._need_new_token], always returns, changes neither the policy nor
    the request nor the trace, and returns true exactly when no token is
    cached, or the token's [refresh_on] is set and is not after the current
    time, or fewer than 300 seconds remain until its [expires_on]; it
    returns false otherwise. *)
Theorem refresh_decision_iff (env : Env) (w : World) :
  exists b w',
    token_is_None_or_need_new_token env w = (Returned b, w')
    /\ self w' = self w /\ request w' = request w /\ trace w' = trace w
    /\ (b = true <-> needs_refresh (_token (self w)) (clock env (ticks w)))
    /\ (b = false <-> ~ needs_refresh (_token (self w)) (clock env (ticks w))).
Proof.
  unfold token_is_None_or_need_new_token, bind, get_self.
  destruct (_token (self w)) as [t|] eqn:Htok.
  - eexists _, _. split; [reflexivity|]. simpl. rewrite Htok.
    repeat split; try done.
    + by intros ?%need_new_token_at_spec.
    + by intros ?%need_new_token_at_spec.
    + intros Hb Hn%need_new_token_at_spec. congruence.
    + intros Hn. rewrite <- need_new_token_at_spec in Hn.
      by destruct (need_new_token_at _ _).
  - exists true, w. split; [reflexivity|].
    repeat split; try done; try (by intros; left).
    intros Hn. exfalso. apply Hn. by left.
Qed.

(** ** Running the definitions *)

Ltac unfold_policy :=
  unfold on_request, authorize_request, async_with_lock, _lock,
    token_is_None_or_need_new_token, _need_new_token, _enforce_https,
    self_token_token, credential_get_token_info, self_next_send,
    set_token, set_header, pop_option, time_time,
    try_finally, try_except_reraise, emit, put_self, put_request,
    get_self, get_request, bind, ret, raise in *.

(** Splits on the scrutinee of an innermost [match] of the goal. *)
Ltac split_match :=
  match goal with
  | |- context [match ?x with _ => _ end] =>
      lazymatch x with
      | context [match _ with _ => _ end] => fail
      | _ => destruct x eqn:?
      end
  end.

Ltac run_policy := unfold_policy; simpl in *; repeat (split_match; simpl in *).

(** Closes [trace w' = trace w ++ ?d] once the trace is computed. *)
Ltac trace_delta :=
  simpl; rewrite <- ?app_assoc; simpl;
  first [reflexivity | symmetry; apply app_nil_r].

Lemma fetches_app (tr d : list Event) : fetches (tr ++ d) = fetches tr + fetches d.
Proof. unfold fetches. by rewrite List.filter_app, length_app. Qed.

Lemma forwards_app (tr d : list Event) : forwards (tr ++ d) = forwards tr + forwards d.
Proof. unfold forwards. by rewrite List.filter_app, length_app. Qed.

Lemma new_events_app (w w' : World) (d : list Event) :
  trace w' = trace w ++ d -> new_events w w' = d.
Proof. unfold new_events. intros ->. by rewrite drop_app_length. Qed.

(** ** [on_request] *)

Lemma on_request_insecure (env : Env) (af : AuthFlows) (w : World) :
  ~ explicitly_empty af ->
  secure_transport env (http_request (request w)) = false ->
  on_request env af w = (Raised ServiceRequestError, w).
Proof.
  unfold explicitly_empty. intros Hne Hsec.
  destruct af as [[|f l]|]; [done| |]; unfold_policy; simpl; by rewrite Hsec.
Qed.

(** With a cached token that is not stale, [on_request] takes no lock and
    fetches nothing. *)
Lemma on_request_not_stale (env : Env) (af : AuthFlows) (w : World) t :
  _token (self w) = Some t ->
  need_new_token_at (Some t) (clock env (ticks w)) = false ->
  self (snd (on_request env af w)) = self w
  /\ trace (snd (on_request env af w)) = trace w.
Proof.
  intros Htok Hfresh.
  destruct af as [[|f l]|]; run_policy; try done;
    rewrite ?Htok in *; simplify_eq; congruence.
Qed.

(** The events of a call of [on_request]: the writes are under the lock,
    there is at most one fetch, for the scopes of the policy and the options
    made of the flows, and the next policy is not called. *)
Lemma on_request_events (env : Env) (af : AuthFlows) (w : World) :
  exists d,
    trace (snd (on_request env af w)) = trace w ++ d
    /\ writes_guarded false d = true
    /\ held_after false d = false
    /\ fetches d <= 1
    /\ forwards d = 0
    /\ Forall (fun e => forall sc opts, e = EvGetTokenInfo sc opts ->
                 sc = _scopes (self w) /\ opts = on_request_options af) d.
Proof.
  destruct af as [[|f l]|]; run_policy;
    (eexists; split; [trace_delta|]);
    (split; [reflexivity|]); (split; [reflexivity|]);
    (split; [cbn; lia|]); (split; [reflexivity|]);
    repeat constructor; intros; simplify_eq; done.
Qed.

(** The events of a call of [authorize_request]. *)
Lemma authorize_request_events
    (env : Env) (scopes : list string) (kwargs : gmap string PyValue) (w : World) :
  exists d,
    trace (snd (authorize_request env scopes kwargs w)) = trace w ++ d
    /\ writes_guarded false d = true
    /\ held_after false d = false
    /\ forwards d = 0.
Proof.
  run_policy; (eexists; split; [trace_delta|]); done.
Qed.


(** C3.  With flows that are not an explicitly empty list and a target that
    is not a secure transport, [on_request] raises the transport-security
    error and leaves the world as it was: no fetch is in the trace, no
    header was written, the cached token is the same. *)
Theorem on_request_insecure_fails_first (env : Env) (af : AuthFlows) (w : World) :
  ~ explicitly_empty af ->
  secure_transport env (http_request (request w)) = false ->
  on_request env af w = (Raised ServiceRequestError, w)
  /\ fetches (trace (snd (on_request env af w))) = fetches (trace w)
  /\ _token (self (snd (on_request env af w))) = _token (self w)
  /\ headers (http_request (request (snd (on_request env af w))))
     = headers (http_request (request w)).
Proof. intros Hne Hsec. by rewrite on_request_insecure. Qed.

(** C10.  [on_request] raises the transport-security error exactly when the
    flows are not an explicitly empty list and the target is not a secure
    transport; with an explicitly empty list it returns without an error,
    also for a target that is not a secure transport. *)
Theorem on_request_transport_error_iff (env : Env) (af : AuthFlows) (w : World) :
  (fst (on_request env af w) = Raised ServiceRequestError
   <-> ~ explicitly_empty af
       /\ secure_transport env (http_request (request w)) = false)
  /\ (explicitly_empty af -> fst (on_request env af w) = Returned tt).
Proof.
  split; [split|].
  - intros Hraise.
    destruct (decide (explicitly_empty af)) as [->|Hne]; [done|].
    split; [done|].
    destruct (secure_transport env (http_request (request w))) eqn:Hsec; [|done].
    exfalso. revert Hraise. unfold explicitly_empty in Hne.
    destruct af as [[|f l]|]; [done| |];
      run_policy; congruence.
  - intros [Hne Hsec]. by rewrite on_request_insecure.
  - by intros ->.
Qed.

(** ** [authorize_request] *)

(** The loop of [authorize_request] on any list of keys. *)
Lemma move_options_lookup
    (ann : list string) (ks : list string)
    (opts kw : gmap string PyValue) (key : string) :
  fst (foldl
         (fun '(opts, kw) key =>
            if bool_decide (key ∈ ann) then
              match kw !! key with
              | Some v => (<[key := v]> opts, delete key kw)
              | None => (opts, kw)
              end
            else (opts, kw))
         (opts, kw) ks) !! key
  = if bool_decide (key ∈ ks /\ key ∈ ann /\ is_Some (kw !! key))
    then kw !! key else opts !! key.
Proof.
  revert opts kw. induction ks as [|k0 ks IH]; intros opts kw.
  - cbn [foldl fst]. rewrite bool_decide_eq_false_2; [done|].
    intros [Hin _]. by apply elem_of_nil in Hin.
  - cbn [foldl]. case_bool_decide as Hann.
    + destruct (kw !! k0) as [v|] eqn:Hk0.
      * rewrite IH. destruct (decide (key = k0)) as [->|Hne].
        -- rewrite lookup_delete_eq, lookup_insert_eq.
           rewrite bool_decide_eq_false_2 by (intros (_ & _ & [? ?]); done).
           rewrite bool_decide_eq_true_2; [done|].
           split; [by left|by split].
        -- rewrite lookup_delete_ne, lookup_insert_ne by done.
           case_bool_decide as H1; case_bool_decide as H2; try done;
             exfalso; rewrite elem_of_cons in *; naive_solver.
      * rewrite IH. case_bool_decide as H1; case_bool_decide as H2; try done;
          exfalso; rewrite elem_of_cons in *; [naive_solver|].
        destruct H2 as ([->|Hin] & ? & Hsome); [|naive_solver].
        rewrite Hk0 in Hsome. by destruct Hsome.
    + rewrite IH. case_bool_decide as H1; case_bool_decide as H2; try done;
        exfalso; rewrite elem_of_cons in *; naive_solver.
Qed.

(** The options of [authorize_request] are the keyword arguments whose key
    is a key of [TokenRequestOptions]. *)
Lemma authorize_request_options_lookup
    (env : Env) (kwargs : gmap string PyValue) (key : string) :
  fst (authorize_request_options env kwargs) !! key
  = if bool_decide (key ∈ TokenRequestOptions_annotations env)
    then kwargs !! key else None.
Proof.
  unfold authorize_request_options. rewrite move_options_lookup, lookup_empty.
  destruct (decide (key ∈ TokenRequestOptions_annotations env)) as [Hann|Hann].
  - rewrite (bool_decide_eq_true_2 (key ∈ _)) by done.
    destruct (kwargs !! key) as [v|] eqn:Hkey.
    + rewrite bool_decide_eq_true_2; [done|]. split; [|by split].
      apply list_elem_of_fmap. exists (key, v). split; [done|].
      by apply elem_of_map_to_list.
    + by case_bool_decide.
  - rewrite (bool_decide_eq_false_2 (key ∈ _)) by done.
    rewrite bool_decide_eq_false_2; [done|]. by intros (_ & ? & _).
Qed.

(** C5.  [authorize_request] asks the credential for a token whatever the
    cache holds, between an acquire and a release of the lock, for the
    scopes it was given and the options among its keyword arguments.  When
    the credential returns a token, that token replaces the cached one and
    the Authorization header of the request is ["Bearer "] followed by its
    value; when the credential raises, the error is raised again and the
    cache and the request are as they were. *)
Theorem authorize_request_fetches_unconditionally
    (env : Env) (scopes : list string) (kwargs : gmap string PyValue) (w : World) :
  let opts := fst (authorize_request_options env kwargs) in
  let created :=
    match _lock_instance (self w) with
    | None => [EvLockCreated]
    | Some _ => []
    end in
  (forall key,
     opts !! key = if bool_decide (key ∈ TokenRequestOptions_annotations env)
                   then kwargs !! key else None)
  /\ fetches (trace (snd (authorize_request env scopes kwargs w)))
     = fetches (trace w) + 1
  /\ match get_token_info env (fetches (trace w)) scopes opts with
     | inr t =>
         exists w',
           authorize_request env scopes kwargs w = (Returned tt, w')
           /\ _token (self w') = Some t
           /\ headers (http_request (request w')) !! "Authorization"
              = Some ("Bearer " +:+ token t)
           /\ trace w' = trace w ++ created
                ++ [EvAcquire; EvGetTokenInfo scopes opts;
                    EvSetToken (Some t); EvRelease]
     | inl reason =>
         exists w',
           authorize_request env scopes kwargs w
           = (Raised (CredentialError reason), w')
           /\ _token (self w') = _token (self w)
           /\ request w' = request w
           /\ trace w' = trace w ++ created
                ++ [EvAcquire; EvGetTokenInfo scopes opts; EvRelease]
     end.
Proof.
  intros opts created. subst created.
  split; [intros key; apply authorize_request_options_lookup|].
  destruct (get_token_info env (fetches (trace w)) scopes opts) as [reason|t] eqn:Hget;
    unfold authorize_request; fold opts; unfold_policy; simpl;
    destruct (_lock_instance (self w)); simpl;
    rewrite ?fetches_app, ?Nat.add_0_r; cbn [fetches List.filter is_fetch length];
    rewrite ?Nat.add_0_r, Hget; simpl;
    (split; [rewrite <- ?app_assoc, fetches_app; cbn; lia|]);
    (eexists; split; [reflexivity|]); simpl;
    rewrite <- ?app_assoc; simpl;
    repeat split; try done; by rewrite lookup_insert_eq.
Qed.

(** Line 82 and line 101 never read [.token] of [None]. *)
Lemma no_attribute_error (env : Env) (w : World) :
  (forall af, fst (on_request env af w) <> Raised AttributeError)
  /\ (forall scopes kwargs,
        fst (authorize_request env scopes kwargs w) <> Raised AttributeError).
Proof.
  split.
  - intros [[|f l]|]; run_policy; congruence.
  - intros scopes kwargs. run_policy; congruence.
Qed.

(** ** [send] *)

Lemma without_auth_flows_option_id (w : World) :
  options (context (request w)) !! "auth_flows" = None ->
  without_auth_flows_option w = w.
Proof.
  intros Hnone. unfold without_auth_flows_option. rewrite delete_id by done.
  by destruct w as [p [hr [o]] tr n].
Qed.

(** The first three lines of [send] are [on_request] with the effective
    flows, on the request without the override. *)
Lemma send_authorize_eq (env : Env) (w : World) :
  send_authorize env w
  = on_request env (effective_auth_flows w) (without_auth_flows_option w).
Proof.
  unfold send_authorize, effective_auth_flows, pop_option, get_request, bind.
  destruct (options (context (request w)) !! "auth_flows") as [[l|]|] eqn:Hopt;
    try done.
  by rewrite without_auth_flows_option_id.
Qed.

(** [send] is its three parts in a row. *)
Lemma send_eq (env : Env) (h : Hooks) (w : World) :
  send env w
  = (send_authorize env ;;; response <- forward env ;; handle_response env response) w.
Proof.
  unfold send, send_authorize, forward, handle_response, bind, ret.
  destruct (pop_option "auth_flows" w) as [[op|e] w0]; [|done].
  destruct (get_self w0) as [[p|e] w1]; [|done].
  destruct (on_request env _ w1) as [[[]|e] w2]; [|done].
  destruct (try_except_reraise _ _ w2) as [[r|e] w3]; [|done].
  destruct (emit EvOnResponse w3) as [[[]|e] w4]; [|done].
  by destruct (on_response r w4) as [[[]|e] w5].
Qed.

(** C2.  With an explicitly empty list of flows [on_request] returns at
    once and leaves the world as it was: nothing is fetched, the cached
    token is the same and no header of the request is set.  In a [send]
    whose effective flows are the empty list, the override is taken out of
    the options bag and the request is forwarded with the headers it came
    with. *)
Theorem on_request_empty_flows_noop (env : Env) (h : Hooks) (w : World) :
  on_request env (Some []) w = (Returned tt, w)
  /\ fetches (trace (snd (on_request env (Some []) w))) = fetches (trace w)
  /\ _token (self (snd (on_request env (Some []) w))) = _token (self w)
  /\ headers (http_request (request (snd (on_request env (Some []) w))))
     = headers (http_request (request w))
  /\ (explicitly_empty (effective_auth_flows w) ->
      send env w
      = (response <- forward env ;; handle_response env response)
          (without_auth_flows_option w)).
Proof.
  repeat split. unfold explicitly_empty. intros Heff.
  rewrite send_eq. unfold bind at 1. by rewrite send_authorize_eq, Heff.
Qed.

(** *** Counting the events of one kind *)

Section Counting.

Context (kind : Event -> bool).

Lemma adds_at_most_weaken {A} (n n' : nat) (m : M A) :
  adds_at_most kind n m -> n <= n' -> adds_at_most kind n' m.
Proof. intros Hm Hle w. specialize (Hm w). lia. Qed.

Lemma adds_at_most_ret {A} (a : A) : adds_at_most kind 0 (ret a).
Proof. intros w. simpl. lia. Qed.

Lemma adds_at_most_raise {A} (e : Exn) : adds_at_most kind 0 (raise (A := A) e).
Proof. intros w. simpl. lia. Qed.

Lemma adds_at_most_bind {A B} (n n' : nat) (m : M A) (k : A -> M B) :
  adds_at_most kind n m ->
  (forall a, adds_at_most kind n' (k a)) ->
  adds_at_most kind (n + n') (bind m k).
Proof.
  intros Hm Hk w. unfold bind. specialize (Hm w).
  destruct (m w) as [[a|e] w']; simpl in *; [|lia].
  specialize (Hk a w'). lia.
Qed.

Lemma adds_at_most_try_except {A} (n n' : nat) (m : M A) (handler : M unit) :
  adds_at_most kind n m ->
  adds_at_most kind n' handler ->
  adds_at_most kind (n + n') (try_except_reraise m handler).
Proof.
  intros Hm Hh w. unfold try_except_reraise. specialize (Hm w).
  destruct (m w) as [[a|e] w']; simpl in *; [lia|].
  destruct (is_Exception e); simpl; [|lia].
  specialize (Hh w'). destruct (handler w') as [[[]|e'] w'']; simpl in *; lia.
Qed.

Lemma adds_at_most_if {A} (n : nat) (b : bool) (m m' : M A) :
  adds_at_most kind n m -> adds_at_most kind n m' ->
  adds_at_most kind n (if b then m else m').
Proof. by destruct b. Qed.

Lemma leaves_count_adds {A} (m : M A) :
  leaves_count kind m -> adds_at_most kind 0 m.
Proof. intros Hm w. rewrite (Hm w). lia. Qed.

Lemma adds_at_most_emit (e : Event) :
  kind e = false -> adds_at_most kind 0 (emit e).
Proof.
  intros He w. simpl. rewrite List.filter_app, length_app. simpl.
  rewrite He. simpl. lia.
Qed.

Lemma adds_at_most_set_token (v : option AccessTokenInfo) :
  kind (EvSetToken v) = false -> adds_at_most kind 0 (set_token v).
Proof.
  intros He w. simpl. rewrite List.filter_app, length_app. simpl.
  rewrite He. simpl. lia.
Qed.

End Counting.

Lemma on_request_forwards (env : Env) (af : AuthFlows) (w : World) :
  forwards (trace (snd (on_request env af w))) = forwards (trace w).
Proof.
  destruct (on_request_events env af w) as (d & -> & _ & _ & _ & Hd & _).
  rewrite forwards_app. lia.
Qed.

Lemma on_request_fetches (env : Env) (af : AuthFlows) :
  adds_at_most is_fetch 1 (on_request env af).
Proof.
  intros w. destruct (on_request_events env af w) as (d & -> & _ & _ & Hd & _).
  fold (fetches (trace w ++ d)). fold (fetches (trace w)).
  rewrite fetches_app. lia.
Qed.

Lemma send_authorize_forwards (env : Env) (w : World) :
  forwards (trace (snd (send_authorize env w))) = forwards (trace w).
Proof. by rewrite send_authorize_eq, on_request_forwards. Qed.

Lemma send_authorize_fetches (env : Env) :
  adds_at_most is_fetch 1 (send_authorize env).
Proof.
  intros w. rewrite send_authorize_eq.
  exact (on_request_fetches env _ (without_auth_flows_option w)).
Qed.

(** A call of [forward] is one call of the next policy and no fetch, when
    the hooks make neither. *)
Lemma forward_forwards (env : Env) (h : Hooks) (w : World) :
  hooks_leave_count is_forward h ->
  forwards (trace (snd (forward env w))) = forwards (trace w) + 1.
Proof.
  intros (_ & Hresp & Hexc).
  unfold forward, try_except_reraise, self_next_send, bind, emit, ret.
  destruct (next_send env _ _) as [[reason|reason]|r]; simpl.
  - match goal with |- context [on_exception ?w'] =>
      specialize (Hexc w'); destruct (on_exception w') as [[[]|e] w'']
    end; simpl in *; unfold forwards; rewrite Hexc;
      rewrite !List.filter_app, !length_app; simpl; lia.
  - unfold forwards. rewrite !List.filter_app, !length_app. simpl. lia.
  - match goal with |- context [on_response r ?w'] =>
      specialize (Hresp r w'); destruct (on_response r w') as [[[]|e] w'']
    end; simpl in *; unfold forwards; rewrite Hresp;
      rewrite !List.filter_app, !length_app; simpl; lia.
Qed.

Lemma forward_fetches (env : Env) (h : Hooks) :
  hooks_leave_count is_fetch h ->
  adds_at_most is_fetch 0 (forward env).
Proof.
  intros (_ & Hresp & Hexc) w.
  unfold forward, try_except_reraise, self_next_send, bind, emit, ret.
  destruct (next_send env _ _) as [[reason|reason]|r]; simpl.
  - match goal with |- context [on_exception ?w'] =>
      specialize (Hexc w'); destruct (on_exception w') as [[[]|e] w'']
    end; simpl in *; rewrite Hexc;
      rewrite !List.filter_app, !length_app; simpl; lia.
  - rewrite !List.filter_app, !length_app. simpl. lia.
  - match goal with |- context [on_response r ?w'] =>
      specialize (Hresp r w'); destruct (on_response r w') as [[[]|e] w'']
    end; simpl in *; rewrite Hresp;
      rewrite !List.filter_app, !length_app; simpl; lia.
Qed.

(** When [forward] returns a response, the next policy gave it and the
    response hook returned. *)
Lemma forward_returned (env : Env) (h : Hooks) (w w' : World) (r : PipelineResponse) :
  forward env w = (Returned r, w') ->
  next_send env (forwards (trace w)) (request w) = inr r.
Proof.
  unfold forward, try_except_reraise, self_next_send, bind, emit, ret.
  destruct (next_send env _ _) as [[reason|reason]|r0]; simpl.
  - by destruct (on_exception _) as [[[]|e] w''].
  - done.
  - destruct (on_response r0 _) as [[[]|e] w'']; [|done]. by intros [= -> _].
Qed.

Lemma handle_response_forwards (env : Env) (h : Hooks) (r : PipelineResponse) :
  hooks_leave_count is_forward h ->
  adds_at_most is_forward 1 (handle_response env r).
Proof.
  intros Hh. pose proof Hh as (Hchal & _ & _). unfold handle_response.
  apply adds_at_most_if; [|eapply adds_at_most_weaken; [apply adds_at_most_ret|lia]].
  apply (adds_at_most_bind _ 0 1); [by apply adds_at_most_set_token|intros _].
  apply adds_at_most_if; [|eapply adds_at_most_weaken; [apply adds_at_most_ret|lia]].
  apply (adds_at_most_bind _ 0 1); [by apply adds_at_most_emit|intros _].
  apply (adds_at_most_bind _ 0 1); [by apply leaves_count_adds|intros b].
  apply adds_at_most_if; [|eapply adds_at_most_weaken; [apply adds_at_most_ret|lia]].
  intros w. pose proof (forward_forwards env h w Hh) as Hf.
  unfold forwards in Hf. lia.
Qed.

Lemma handle_response_fetches (env : Env) (h : Hooks) (r : PipelineResponse) :
  hooks_leave_count is_fetch h ->
  adds_at_most is_fetch 0 (handle_response env r).
Proof.
  intros Hh. pose proof Hh as (Hchal & _ & _). unfold handle_response.
  apply adds_at_most_if; [|apply adds_at_most_ret].
  apply (adds_at_most_bind _ 0 0); [by apply adds_at_most_set_token|intros _].
  apply adds_at_most_if; [|apply adds_at_most_ret].
  apply (adds_at_most_bind _ 0 0); [by apply adds_at_most_emit|intros _].
  apply (adds_at_most_bind _ 0 0); [by apply leaves_count_adds|intros b].
  apply adds_at_most_if; [|apply adds_at_most_ret].
  by apply forward_fetches.
Qed.

(** What follows the authorization step in [send] fetches nothing. *)
Lemma send_tail_fetches (env : Env) (h : Hooks) :
  hooks_leave_count is_fetch h ->
  adds_at_most is_fetch 0
    (response <- forward env ;; handle_response env response).
Proof.
  intros Hh. apply (adds_at_most_bind _ 0 0); [by apply forward_fetches|].
  intros r. by apply handle_response_fetches.
Qed.

Lemma send_fetches (env : Env) (h : Hooks) :
  hooks_leave_count is_fetch h ->
  adds_at_most is_fetch 1 (send env).
Proof.
  intros Hh w. rewrite send_eq.
  apply (adds_at_most_bind _ 1 0); [apply send_authorize_fetches|].
  intros _. by apply send_tail_fetches.
Qed.

Lemma send_forwards (env : Env) (h : Hooks) (w : World) :
  hooks_leave_count is_forward h ->
  forwards (trace (snd (send env w))) <= forwards (trace w) + 2.
Proof.
  intros Hh. rewrite send_eq. revert w.
  change (adds_at_most is_forward 2
            (send_authorize env ;;;
             response <- forward env ;; handle_response env response)).
  apply (adds_at_most_bind _ 0 2).
  { intros w. fold (forwards (trace w)). rewrite <- (send_authorize_forwards env w).
    unfold forwards. lia. }
  intros _. apply (adds_at_most_bind _ 1 1).
  - intros w. pose proof (forward_forwards env h w Hh) as Hf.
    unfold forwards in Hf. lia.
  - intros r. by apply handle_response_forwards.
Qed.


Lemma send_after_first_response
    (env : Env) (h : Hooks) (w w1 w2 : World) (r : PipelineResponse) :
  send_authorize env w = (Returned tt, w1) ->
  forward env w1 = (Returned r, w2) ->
  send env w = handle_response env r w2.
Proof. intros H1 H2. rewrite send_eq. unfold bind. by rewrite H1, H2. Qed.

Lemma first_response_forwards
    (env : Env) (h : Hooks) (w w1 w2 : World) (r : PipelineResponse) :
  hooks_leave_count is_forward h ->
  send_authorize env w = (Returned tt, w1) ->
  forward env w1 = (Returned r, w2) ->
  forwards (trace w2) = forwards (trace w) + 1.
Proof.
  intros Hh H1 H2.
  pose proof (forward_forwards env h w1 Hh) as Hf. rewrite H2 in Hf.
  pose proof (send_authorize_forwards env w) as Ha. rewrite H1 in Ha.
  simpl in *. lia.
Qed.

Lemma forwards_snoc (tr : list Event) (e : Event) :
  is_forward e = false -> forwards (tr ++ [e]) = forwards tr.
Proof. intros He. rewrite forwards_app. unfold forwards. simpl. rewrite He. simpl. lia. Qed.

(** [send] of the class itself, answered 401: the response comes back
    after one forwarding and the cache is empty. *)
Lemma class_send_401 (env : Env) (w w1 : World) (r : PipelineResponse) :
  send_authorize env w = (Returned tt, w1) ->
  next_send env (forwards (trace w1)) (request w1) = inr r ->
  status_code (http_response r) = 401%Z ->
  exists w',
    send (hooks := AsyncBearerTokenCredentialPolicy) env w = (Returned r, w')
    /\ _token (self w') = None
    /\ forwards (trace w') = forwards (trace w) + 1.
Proof.
  intros H1 Hnext H401.
  pose proof (send_authorize_forwards env w) as Ha. rewrite H1 in Ha. simpl in Ha.
  rewrite send_eq. unfold bind at 1. rewrite H1.
  unfold forward, handle_response, on_challenge, on_response, on_exception,
    AsyncBearerTokenCredentialPolicy.
  unfold_policy. simpl. rewrite Hnext. simpl. rewrite H401. simpl.
  destruct (bool_decide _); simpl;
    (eexists; split; [reflexivity|]); simpl; (split; [done|]);
    rewrite !forwards_app; unfold forwards in *; simpl; lia.
Qed.

(** C6.  When the first response of a [send] has status 401, the cached
    token is set to [None], whatever token it was ([w3] is the world after
    that write).  If the response has no [WWW-Authenticate] header, or it
    has one and the challenge handler returns false, [send] returns that
    response and the next policy was called exactly once.  With the
    [on_challenge] of the class itself, which always returns false, a 401
    is returned as it is, after one forwarding, and leaves the cache
    empty.  The hooks of a subclass are taken not to call the next policy
    themselves. *)
Theorem send_401_clears_token_without_retry
    (env : Env) (h : Hooks) (w w1 w2 : World) (r : PipelineResponse) :
  hooks_leave_count is_forward h ->
  send_authorize env w = (Returned tt, w1) ->
  forward env w1 = (Returned r, w2) ->
  status_code (http_response r) = 401%Z ->
  let w3 := snd (set_token None w2) in
  _token (self w3) = None
  /\ ("WWW-Authenticate" ∉ dom (response_headers (http_response r)) ->
      send env w = (Returned r, w3)
      /\ forwards (trace w3) = forwards (trace w) + 1)
  /\ (forall w4,
        "WWW-Authenticate" ∈ dom (response_headers (http_response r)) ->
        on_challenge r (snd (emit EvOnChallenge w3)) = (Returned false, w4) ->
        send env w = (Returned r, w4)
        /\ forwards (trace w4) = forwards (trace w) + 1)
  /\ (forall r' w',
        on_challenge (Hooks := AsyncBearerTokenCredentialPolicy) r' w'
        = (Returned false, w'))
  /\ (next_send env (forwards (trace w1)) (request w1) = inr r ->
      exists w',
        send (hooks := AsyncBearerTokenCredentialPolicy) env w = (Returned r, w')
        /\ _token (self w') = None
        /\ forwards (trace w') = forwards (trace w) + 1).
Proof.
  intros Hh H1 H2 H401 w3.
  pose proof (first_response_forwards env h w w1 w2 r Hh H1 H2) as Hcount.
  split; [done|]. split; [|split; [|split; [done|]]].
  - intros Hno. rewrite (send_after_first_response env h w w1 w2 r H1 H2).
    unfold handle_response. rewrite H401. simpl.
    unfold bind. simpl. rewrite bool_decide_eq_false_2 by done.
    split; [done|]. subst w3. simpl. by rewrite forwards_snoc.
  - intros w4 Hyes Hchal. rewrite (send_after_first_response env h w w1 w2 r H1 H2).
    unfold handle_response. rewrite H401. simpl.
    unfold bind. simpl. rewrite bool_decide_eq_true_2 by done.
    simpl. subst w3. simpl in Hchal. rewrite Hchal. split; [done|].
    destruct Hh as (Hc & _ & _).
    match type of Hchal with on_challenge r ?w' = _ => specialize (Hc r w') end.
    rewrite Hchal in Hc. simpl in Hc. unfold forwards in *.
    rewrite Hc, !List.filter_app, !length_app. simpl. lia.
  - intros Hnext. by apply (class_send_401 env w w1 r).
Qed.

(** C7.  [send] calls the next policy at most twice.  When the first
    response is a 401 with a [WWW-Authenticate] header and the challenge
    handler returns true, the request is forwarded once more and what that
    second forwarding gives, a response of any status or an error, is what
    [send] gives: the next policy was called exactly twice.  The hooks of a
    subclass are taken not to call the next policy themselves. *)
Theorem send_resends_at_most_once (env : Env) (h : Hooks) :
  hooks_leave_count is_forward h ->
  (forall w, forwards (trace (snd (send env w))) <= forwards (trace w) + 2)
  /\ (forall w w1 w2 w4 r,
        send_authorize env w = (Returned tt, w1) ->
        forward env w1 = (Returned r, w2) ->
        status_code (http_response r) = 401%Z ->
        "WWW-Authenticate" ∈ dom (response_headers (http_response r)) ->
        on_challenge r (snd (emit EvOnChallenge (snd (set_token None w2))))
        = (Returned true, w4) ->
        send env w = forward env w4
        /\ forwards (trace (snd (send env w))) = forwards (trace w) + 2).
Proof.
  intros Hh. split; [intros w; by apply send_forwards|].
  intros w w1 w2 w4 r H1 H2 H401 Hyes Hchal.
  pose proof (first_response_forwards env h w w1 w2 r Hh H1 H2) as Hcount.
  rewrite (send_after_first_response env h w w1 w2 r H1 H2).
  unfold handle_response. rewrite H401. simpl.
  unfold bind. simpl. rewrite bool_decide_eq_true_2 by done.
  simpl. simpl in Hchal. rewrite Hchal. split; [done|].
  rewrite (forward_forwards env h w4 Hh).
  destruct Hh as (Hc & _ & _).
  match type of Hchal with on_challenge r ?w' = _ => specialize (Hc r w') end.
  rewrite Hchal in Hc. simpl in Hc. unfold forwards in *.
  rewrite Hc, !List.filter_app, !length_app. simpl. lia.
Qed.

(** ** The flows of a call *)

(** Without a cached token, [on_request] on a secure target asks the
    credential, with the options made of the flows it was given. *)
Lemma on_request_fetch_without_token (env : Env) (af : AuthFlows) (w : World) :
  ~ explicitly_empty af ->
  secure_transport env (http_request (request w)) = true ->
  _token (self w) = None ->
  EvGetTokenInfo (_scopes (self w)) (on_request_options af)
  ∈ new_events w (snd (on_request env af w)).
Proof.
  unfold explicitly_empty. intros Hne Hsec Htok.
  assert (exists d, trace (snd (on_request env af w)) = trace w ++ d
                    /\ EvGetTokenInfo (_scopes (self w)) (on_request_options af) ∈ d)
    as (d & Hd & Hin); [|by rewrite (new_events_app _ _ _ Hd)].
  destruct af as [[|f l]|]; [done| |]; run_policy; simplify_eq;
    (eexists; split; [trace_delta|]); set_solver.
Qed.

(** C8.  [send] is [on_request] with the effective flows, followed by the
    forwarding; the effective flows are the override of the options bag of
    the request when it holds one, and the flows the policy was built with
    otherwise.  Every fetch of that [on_request] is made with the options
    built from the effective flows: with an override [f :: l] they are
    [{"auth_flows": f :: l}], whatever the flows of the policy are, and on a
    secure target without a cached token that fetch is made. *)
Theorem send_uses_effective_auth_flows (env : Env) (h : Hooks) (w : World) :
  send env w
  = (on_request env (effective_auth_flows w) ;;;
     response <- forward env ;; handle_response env response)
      (without_auth_flows_option w)
  /\ (forall l, options (context (request w)) !! "auth_flows" = Some (Some l) ->
        effective_auth_flows w = Some l)
  /\ (options (context (request w)) !! "auth_flows" = None
      \/ options (context (request w)) !! "auth_flows" = Some None ->
        effective_auth_flows w = _auth_flows (self w))
  /\ (forall f l sc opts,
        options (context (request w)) !! "auth_flows" = Some (Some (f :: l)) ->
        EvGetTokenInfo sc opts ∈ new_events w (snd (send_authorize env w)) ->
        opts = {[ "auth_flows" := PyFlows (f :: l) ]})
  /\ (forall f l,
        options (context (request w)) !! "auth_flows" = Some (Some (f :: l)) ->
        secure_transport env (http_request (request w)) = true ->
        _token (self w) = None ->
        EvGetTokenInfo (_scopes (self w)) {[ "auth_flows" := PyFlows (f :: l) ]}
        ∈ new_events w (snd (send_authorize env w))).
Proof.
  split; [|split; [|split; [|split]]].
  - rewrite send_eq. unfold bind at 1 3. by rewrite send_authorize_eq.
  - intros l Hl. unfold effective_auth_flows. by rewrite Hl.
  - intros [Hn|Hn]; unfold effective_auth_flows; by rewrite Hn.
  - intros f l sc opts Hl Hin. rewrite send_authorize_eq in Hin.
    destruct (on_request_events env (effective_auth_flows w)
                (without_auth_flows_option w)) as (d & Hd & _ & _ & _ & _ & Hall).
    change (trace (without_auth_flows_option w)) with (trace w) in Hd.
    unfold new_events in Hin. rewrite Hd, drop_app_length in Hin.
    rewrite Forall_forall in Hall.
    destruct (Hall _ Hin sc opts eq_refl) as [_ ->].
    unfold effective_auth_flows. by rewrite Hl.
  - intros f l Hl Hsec Htok. rewrite send_authorize_eq.
    pose proof (on_request_fetch_without_token env (effective_auth_flows w)
                  (without_auth_flows_option w)) as Hfetch.
    unfold effective_auth_flows in *. rewrite Hl in *.
    by apply Hfetch.
Qed.

(** ** The lock and the writes of the cached token *)

Lemma writes_guarded_app (held : bool) (d1 d2 : list Event) :
  writes_guarded held (d1 ++ d2)
  = writes_guarded held d1 && writes_guarded (held_after held d1) d2.
Proof.
  revert held. induction d1 as [|e d1 IH]; intros held; [done|].
  destruct e; simpl; rewrite ?IH; try done. by rewrite andb_assoc.
Qed.

Lemma stores_guarded_app (held : bool) (d1 d2 : list Event) :
  stores_guarded held (d1 ++ d2)
  = stores_guarded held d1 && stores_guarded (held_after held d1) d2.
Proof.
  revert held. induction d1 as [|e d1 IH]; intros held; [done|].
  destruct e as [| | | |[t|]| | | |]; simpl; rewrite ?IH; try done.
  by rewrite andb_assoc.
Qed.

Lemma writes_guarded_stores (held : bool) (d : list Event) :
  writes_guarded held d = true -> stores_guarded held d = true.
Proof.
  revert held. induction d as [|e d IH]; intros held; [done|].
  destruct e as [| | | |[t|]| | | |]; simpl; try apply IH.
  - intros [-> Hd]%andb_true_iff. by rewrite IH.
  - intros [-> Hd]%andb_true_iff. by rewrite IH.
Qed.

(** The events of [send] after the authorization step, for the hooks of the
    class: no lock is taken, and the only write is the [None] of line 124,
    made when the response is a 401. *)
Lemma send_tail_events (env : Env) (w : World) :
  exists d,
    trace (snd ((response <- forward env ;; handle_response env response) w))
    = trace w ++ d
    /\ (forall held, stores_guarded held d = true)
    /\ (forall r, next_send env (forwards (trace w)) (request w) = inr r ->
          status_code (http_response r) = 401%Z ->
          writes_guarded false d = false).
Proof.
  unfold forward, handle_response, on_challenge, on_response, on_exception,
    AsyncBearerTokenCredentialPolicy.
  run_policy; (eexists; split; [trace_delta|]);
    (split; [done|]); intros r' [= <-] H401; try done;
    rewrite H401 in *; done.
Qed.

(** C9, as the code has it.  Every write of the cached token that
    [on_request] and [authorize_request] make is made while the lock is
    held.  In [send], with the hooks of the class, every write of a token is
    made while the lock is held, and the write of [None] that follows a 401
    response is made after the lock was released: that write is not
    guarded. *)
Theorem fetched_token_written_under_lock (env : Env) :
  (forall af w,
     writes_guarded false (new_events w (snd (on_request env af w))) = true)
  /\ (forall scopes kwargs w,
        writes_guarded false
          (new_events w (snd (authorize_request env scopes kwargs w))) = true)
  /\ (forall w, stores_guarded false (new_events w (snd (send env w))) = true)
  /\ (forall w w1 r,
        send_authorize env w = (Returned tt, w1) ->
        next_send env (forwards (trace w1)) (request w1) = inr r ->
        status_code (http_response r) = 401%Z ->
        writes_guarded false (new_events w (snd (send env w))) = false).
Proof.
  split; [|split; [|split]].
  - intros af w. destruct (on_request_events env af w) as (d & Hd & Hg & _).
    by rewrite (new_events_app _ _ _ Hd).
  - intros scopes kwargs w.
    destruct (authorize_request_events env scopes kwargs w) as (d & Hd & Hg & _).
    by rewrite (new_events_app _ _ _ Hd).
  - intros w. rewrite send_eq. unfold bind at 1.
    rewrite send_authorize_eq.
    destruct (on_request_events env (effective_auth_flows w)
                (without_auth_flows_option w)) as (d & Hd & Hg & Hheld & _).
    change (trace (without_auth_flows_option w)) with (trace w) in Hd.
    destruct (on_request _ _ _) as [[[]|e] w1]; simpl in *.
    + destruct (send_tail_events env w1) as (d' & Hd' & Hs & _).
      rewrite Hd, <- app_assoc in Hd'. rewrite (new_events_app _ _ _ Hd').
      by rewrite stores_guarded_app, Hheld, Hs, writes_guarded_stores.
    + rewrite (new_events_app _ _ _ Hd). by apply writes_guarded_stores.
  - intros w w1 r H1 Hnext H401. rewrite send_eq. unfold bind at 1. rewrite H1.
    rewrite send_authorize_eq in H1.
    destruct (on_request_events env (effective_auth_flows w)
                (without_auth_flows_option w)) as (d & Hd & Hg & Hheld & _).
    change (trace (without_auth_flows_option w)) with (trace w) in Hd.
    rewrite H1 in Hd. simpl in Hd.
    destruct (send_tail_events env w1) as (d' & Hd' & _ & Hw).
    rewrite Hd, <- app_assoc in Hd'. rewrite (new_events_app _ _ _ Hd').
    by rewrite writes_guarded_app, Hheld, (Hw r Hnext H401), andb_false_r.
Qed.

(** C9, as the spec has it, fails: a [send] of a new policy that is
    answered 401 fetches a token and writes it under the lock, forwards the
    request, and then writes [None] to the cache without holding the lock. *)
Lemma send_401_write_not_guarded :
  new_events Demo.fresh_start
    (snd (send (Demo.env (Demo.always Demo.unauthorized))
            Demo.fresh_start))
  = [EvLockCreated; EvAcquire;
     EvGetTokenInfo ["https://example.org/.default"] ∅;
     EvSetToken (Some Demo.a_token); EvRelease;
     EvNextSend
       {| http_request :=
            {| url := "https://example.org/";
               headers := {[ "Authorization" := "Bearer secret" ]} |};
          context := {| options := ∅ |} |};
     EvOnResponse; EvSetToken None]
  /\ writes_guarded false
       (new_events Demo.fresh_start
          (snd (send (Demo.env (Demo.always Demo.unauthorized))
                  Demo.fresh_start)))
     = false.
Proof. vm_compute. split; reflexivity. Qed.

(** ** The theorems at work *)

Lemma class_hooks_leave_count (kind : Event -> bool) :
  hooks_leave_count kind AsyncBearerTokenCredentialPolicy.
Proof. by repeat split. Qed.

Lemma reauthorizing_leaves_forwards (e : Env) :
  hooks_leave_count is_forward (Demo.Reauthorizing e).
Proof.
  repeat split; try done. intros r w. simpl. unfold bind.
  destruct (authorize_request_events e ["https://example.org/.default"] ∅ w)
    as (d & Hd & _ & _ & Hfw).
  destruct (authorize_request _ _ _ w) as [[[]|err] w']; simpl in *;
    rewrite Hd; fold (forwards (trace w ++ d)); rewrite forwards_app; unfold forwards in *; lia.
Qed.

(** An insecure target, no flows given: the call fails and nothing moved. *)
Lemma on_request_insecure_fails_first_witness :
  on_request (Demo.env (Demo.always Demo.ok)) None
    (Demo.start None Demo.insecure_request)
  = (Raised ServiceRequestError, Demo.start None Demo.insecure_request)
  /\ fetches (trace (snd (on_request (Demo.env (Demo.always Demo.ok)) None
                           (Demo.start None Demo.insecure_request))))
     = fetches (trace (Demo.start None Demo.insecure_request))
  /\ _token (self (snd (on_request (Demo.env (Demo.always Demo.ok)) None
                          (Demo.start None Demo.insecure_request))))
     = _token (self (Demo.start None Demo.insecure_request))
  /\ headers (http_request (request
        (snd (on_request (Demo.env (Demo.always Demo.ok)) None
                (Demo.start None Demo.insecure_request)))))
     = headers (http_request (request (Demo.start None Demo.insecure_request))).
Proof.
  apply (on_request_insecure_fails_first
           (Demo.env (Demo.always Demo.ok)) None
           (Demo.start None Demo.insecure_request)).
  - unfold explicitly_empty. discriminate.
  - reflexivity.
Defined.

(** A new policy of the class, its first [send] answered by a challenge:
    the handler declines, the 401 comes back after one forwarding and the
    cache is empty. *)
Lemma send_401_clears_token_without_retry_witness :
  fst (send (Demo.env (Demo.always Demo.challenge)) Demo.fresh_start)
  = Returned Demo.challenge
  /\ forwards (trace (snd (send (Demo.env (Demo.always Demo.challenge))
                             Demo.fresh_start))) = 1
  /\ _token (self (snd (send (Demo.env (Demo.always Demo.challenge))
                          Demo.fresh_start))) = None.
Proof.
  pose (e := Demo.env (Demo.always Demo.challenge)).
  pose (w1 := snd (send_authorize e Demo.fresh_start)).
  pose (w2 := snd (forward e w1)).
  pose (w4 := snd (emit EvOnChallenge (snd (set_token None w2)))).
  destruct (send_401_clears_token_without_retry e AsyncBearerTokenCredentialPolicy
              Demo.fresh_start w1 w2 Demo.challenge)
    as (_ & _ & Hdeclined & _ & _).
  - apply class_hooks_leave_count.
  - vm_compute. reflexivity.
  - vm_compute. reflexivity.
  - reflexivity.
  - destruct (Hdeclined w4) as [Hsend Hcount].
    + apply (bool_decide_unpack _). vm_compute. exact I.
    + reflexivity.
    + fold e. rewrite Hsend. split; [reflexivity|]. split; [exact Hcount|].
      vm_compute. reflexivity.
Defined.

(** A subclass that authorizes again on a challenge: the first [send] of a
    new policy is answered by a challenge and then by a 200; the 200 comes
    back after two forwardings. *)
Lemma send_resends_at_most_once_witness :
  fst (send (hooks := Demo.Reauthorizing
                        (Demo.env (Demo.first_then_ok Demo.challenge)))
         (Demo.env (Demo.first_then_ok Demo.challenge))
         Demo.fresh_start)
  = Returned Demo.ok
  /\ forwards (trace (snd (send (hooks := Demo.Reauthorizing
                                  (Demo.env (Demo.first_then_ok Demo.challenge)))
                             (Demo.env (Demo.first_then_ok Demo.challenge))
                             Demo.fresh_start))) = 2.
Proof.
  pose (e := Demo.env (Demo.first_then_ok Demo.challenge)).
  pose (h := Demo.Reauthorizing e).
  pose (w1 := snd (send_authorize e Demo.fresh_start)).
  pose (w2 := snd (forward (hooks := h) e w1)).
  pose (w4 := snd (on_challenge (Hooks := h) Demo.challenge
                     (snd (emit EvOnChallenge (snd (set_token None w2)))))).
  destruct (send_resends_at_most_once e h (reauthorizing_leaves_forwards e))
    as [_ Hretry].
  destruct (Hretry Demo.fresh_start w1 w2 w4 Demo.challenge)
    as [Hsend Hcount].
  - vm_compute. reflexivity.
  - vm_compute. reflexivity.
  - reflexivity.
  - apply (bool_decide_unpack _). vm_compute. exact I.
  - vm_compute. reflexivity.
  - fold e h. split; [|exact Hcount]. rewrite Hsend. vm_compute. reflexivity.
Defined.

(** With flows that are not empty and a target that is not secure, [send]
    fails like [on_request] does: nothing is forwarded. *)
Lemma send_insecure_fails_first (env : Env) (h : Hooks) (w : World) :
  ~ explicitly_empty (effective_auth_flows w) ->
  secure_transport env (http_request (request w)) = false ->
  send env w = (Raised ServiceRequestError, without_auth_flows_option w).
Proof.
  intros Hne Hsec. rewrite send_eq. unfold bind at 1.
  by rewrite send_authorize_eq, on_request_insecure.
Qed.

(** *** The examples of the design document *)

(** A cached token with 200 seconds left is renewed, by one fetch. *)
Example token_with_200_seconds_left_is_renewed :
  new_events
    (Demo.cached {| token := "old"; expires_on := 1200; refresh_on := None |})
    (snd (on_request (Demo.env (Demo.always Demo.ok)) None
            (Demo.cached
               {| token := "old"; expires_on := 1200; refresh_on := None |})))
  = [EvAcquire; EvGetTokenInfo ["https://example.org/.default"] ∅;
     EvSetToken (Some Demo.a_token); EvRelease].
Proof. vm_compute. reflexivity. Qed.

(** A cached token whose [refresh_on] has passed is renewed although it has
    not expired. *)
Example token_past_refresh_on_is_renewed :
  fetches
    (trace
       (snd (on_request (Demo.env (Demo.always Demo.ok)) None
               (Demo.cached
                  {| token := "old"; expires_on := 9000; refresh_on := Some 900%Z |}))))
  = 1.
Proof. vm_compute. reflexivity. Qed.

(** A cached token that is good for long is used as it is. *)
Example fresh_token_is_reused :
  new_events
    (Demo.cached {| token := "old"; expires_on := 9000; refresh_on := None |})
    (snd (on_request (Demo.env (Demo.always Demo.ok)) None
            (Demo.cached
               {| token := "old"; expires_on := 9000; refresh_on := None |})))
  = []
  /\ headers (http_request (request
        (snd (on_request (Demo.env (Demo.always Demo.ok)) None
                (Demo.cached
                   {| token := "old"; expires_on := 9000; refresh_on := None |})))))
     !! "Authorization" = Some "Bearer old".
Proof. vm_compute. split; reflexivity. Qed.

(** An override [flowA] on a policy built with [flowB]: the credential is
    asked with [flowA]. *)
Example override_flow_is_used :
  new_events
    (Demo.start (Some [Demo.flow "flowB"])
       (Demo.a_request "https://example.org/"
          {[ "auth_flows" := Some [Demo.flow "flowA"] ]}))
    (snd (send_authorize (Demo.env (Demo.always Demo.ok))
            (Demo.start (Some [Demo.flow "flowB"])
               (Demo.a_request "https://example.org/"
                  {[ "auth_flows" := Some [Demo.flow "flowA"] ]}))))
  = [EvLockCreated; EvAcquire;
     EvGetTokenInfo ["https://example.org/.default"]
       {[ "auth_flows" := PyFlows [Demo.flow "flowA"] ]};
     EvSetToken (Some Demo.a_token); EvRelease].
Proof. vm_compute. reflexivity. Qed.

(** An empty override: the request is forwarded as it came, to a target
    that is not secure as well, and nothing is fetched. *)
Example empty_override_sends_unauthenticated :
  new_events
    (Demo.start (Some [Demo.flow "flowB"])
       (Demo.a_request "http://example.org/" {[ "auth_flows" := Some [] ]}))
    (snd (send (Demo.env (Demo.always Demo.ok))
            (Demo.start (Some [Demo.flow "flowB"])
               (Demo.a_request "http://example.org/"
                  {[ "auth_flows" := Some [] ]}))))
  = [EvNextSend (Demo.a_request "http://example.org/" ∅); EvOnResponse].
Proof. vm_compute. reflexivity. Qed.

(** A second 401 is returned as it is: the next policy is not called a
    third time, and the token the handler fetched stays in the cache. *)
Example second_401_is_returned :
  fst (send (hooks := Demo.Reauthorizing (Demo.env (Demo.always Demo.challenge)))
         (Demo.env (Demo.always Demo.challenge)) Demo.fresh_start)
  = Returned Demo.challenge
  /\ forwards
       (trace (snd (send (hooks := Demo.Reauthorizing
                                     (Demo.env (Demo.always Demo.challenge)))
                      (Demo.env (Demo.always Demo.challenge)) Demo.fresh_start)))
     = 2
  /\ _token
       (self (snd (send (hooks := Demo.Reauthorizing
                                    (Demo.env (Demo.always Demo.challenge)))
                     (Demo.env (Demo.always Demo.challenge)) Demo.fresh_start)))
     = Some Demo.a_token.
Proof. vm_compute. repeat split. Qed.

(** The override [flowA] of a call on a policy built with [flowB]: the
    fetch of the call is made with [flowA]. *)
Lemma send_uses_effective_auth_flows_witness :
  EvGetTokenInfo ["https://example.org/.default"]
    {[ "auth_flows" := PyFlows [Demo.flow "flowA"] ]}
  ∈ new_events
      (Demo.start (Some [Demo.flow "flowB"])
         (Demo.a_request "https://example.org/"
            {[ "auth_flows" := Some [Demo.flow "flowA"] ]}))
      (snd (send_authorize (Demo.env (Demo.always Demo.ok))
              (Demo.start (Some [Demo.flow "flowB"])
                 (Demo.a_request "https://example.org/"
                    {[ "auth_flows" := Some [Demo.flow "flowA"] ]})))).
Proof.
  destruct (send_uses_effective_auth_flows
              (Demo.env (Demo.always Demo.ok))
              AsyncBearerTokenCredentialPolicy
              (Demo.start (Some [Demo.flow "flowB"])
                 (Demo.a_request "https://example.org/"
                    {[ "auth_flows" := Some [Demo.flow "flowA"] ]})))
    as (_ & _ & _ & _ & Hfetch).
  apply (Hfetch (Demo.flow "flowA") []); reflexivity.
Defined.

(** A [send] of a new policy that is answered 401: the token is written
    under the lock, the [None] is not. *)
Lemma fetched_token_written_under_lock_witness :
  stores_guarded false
    (new_events Demo.fresh_start
       (snd (send (Demo.env (Demo.always Demo.unauthorized)) Demo.fresh_start)))
  = true
  /\ writes_guarded false
       (new_events Demo.fresh_start
          (snd (send (Demo.env (Demo.always Demo.unauthorized)) Demo.fresh_start)))
     = false.
Proof.
  destruct (fetched_token_written_under_lock
              (Demo.env (Demo.always Demo.unauthorized)))
    as (_ & _ & Hstores & Hwrites).
  split; [apply Hstores|].
  apply (Hwrites Demo.fresh_start
           (snd (send_authorize (Demo.env (Demo.always Demo.unauthorized))
                   Demo.fresh_start))
           Demo.unauthorized).
  - vm_compute. reflexivity.
  - reflexivity.
  - reflexivity.
Defined.

(** * Further properties of the policy *)

(** ** When a token is renewed *)

Lemma need_new_token_at_mono (tok : option AccessTokenInfo) (now now' : Q) :
  (now <= now')%Q ->
  need_new_token_at tok now = true -> need_new_token_at tok now' = true.
Proof.
  intros Hle. rewrite !need_new_token_at_spec.
  intros [->|(t & -> & [(r & Hr & Hpast)|Hexp])]; [by left| |].
  - right. exists t. split; [done|]. left. exists r. split; [done|].
    by apply (Qle_trans _ now).
  - right. exists t. split; [done|]. right. lra.
Qed.

(** X1.  A cached token that needs to be renewed at some time needs to be
    renewed at every later time: [_need_new_token] never goes back to false
    while the token stays the same. *)
Theorem need_new_token_is_monotone (tok : option AccessTokenInfo) (now now' : Q) :
  (now <= now')%Q ->
  need_new_token_at tok now = true ->
  need_new_token_at tok now' = true.
Proof. apply need_new_token_at_mono. Qed.

Lemma need_new_token_is_monotone_witness :
  need_new_token_at
    (Some {| token := "old"; expires_on := 1200; refresh_on := None |}) 2000
  = true.
Proof.
  apply (need_new_token_is_monotone _ 1000 2000).
  - vm_compute. discriminate.
  - vm_compute. reflexivity.
Defined.

Lemma inject_Z_minus_300 (z : Z) : (inject_Z (z - 300) == inject_Z z - 300)%Q.
Proof. unfold Qeq, Qminus, Qplus, Qopp, inject_Z. simpl. lia. Qed.

(** X2.  A cached token is renewed from one time on: from its [refresh_on],
    that time included, when [refresh_on] is set and is at least 300
    seconds before [expires_on]; after 300 seconds before [expires_on],
    that time excluded, otherwise.  A [refresh_on] later than that has no
    effect, and a token with exactly 300 seconds left is not renewed. *)
Theorem token_renewed_from_renewal_time (t : AccessTokenInfo) (now : Q) :
  need_new_token_at (Some t) now = true
  <-> match renewal_time t with
      | (z, true) => (inject_Z z <= now)%Q
      | (z, false) => (inject_Z z < now)%Q
      end.
Proof.
  rewrite need_new_token_at_spec. unfold needs_refresh, renewal_time.
  pose proof (inject_Z_minus_300 (expires_on t)) as Hminus.
  destruct (refresh_on t) as [r|] eqn:Hr.
  - destruct (r <=? expires_on t - 300)%Z eqn:Hcmp.
    + apply Z.leb_le in Hcmp. rewrite Zle_Qle in Hcmp. split.
      * intros [|(t' & [= <-] & [(r' & Hr' & Hpast)|Hexp])]; [done| |].
        -- rewrite Hr in Hr'. by simplify_eq.
        -- lra.
      * intros Hpast. right. exists t. split; [done|]. left. by exists r.
    + apply Z.leb_gt in Hcmp. rewrite Zlt_Qlt in Hcmp. split.
      * intros [|(t' & [= <-] & [(r' & Hr' & Hpast)|Hexp])]; [done| |].
        -- rewrite Hr in Hr'. simplify_eq. lra.
        -- lra.
      * intros Hpast. right. exists t. split; [done|]. right. lra.
  - split.
    + intros [|(t' & [= <-] & [(r' & Hr' & Hpast)|Hexp])]; [done|congruence|lra].
    + intros Hpast. right. exists t. split; [done|]. right. lra.
Qed.

(** ** What [on_request] and [authorize_request] leave as it was *)

Lemma on_request_frame (env : Env) (af : AuthFlows) (w : World) :
  same_but_authorization (request w) (request (snd (on_request env af w))).
Proof.
  unfold same_but_authorization.
  destruct af as [[|f l]|]; run_policy; repeat split; try done;
    intros key Hkey; by rewrite lookup_insert_ne.
Qed.

Lemma authorize_request_frame
    (env : Env) (scopes : list string) (kwargs : gmap string PyValue) (w : World) :
  same_but_authorization (request w)
    (request (snd (authorize_request env scopes kwargs w))).
Proof.
  unfold same_but_authorization.
  run_policy; repeat split; try done;
    intros key Hkey; by rewrite lookup_insert_ne.
Qed.

(** X3.  [authorize_request], whether it returns or raises, changes nothing
    of the request but its Authorization header: the URL, the context with
    its options and every other header are as they were. *)
Theorem authorize_request_changes_only_the_header
    (env : Env) (scopes : list string) (kwargs : gmap string PyValue) (w : World) :
  same_but_authorization (request w)
    (request (snd (authorize_request env scopes kwargs w))).
Proof. apply authorize_request_frame. Qed.

(** X4.  When [on_request], given flows that are not an explicitly empty
    list, or [authorize_request] returns, a token is cached and the
    Authorization header of the request is ["Bearer "] followed by the value
    of that token: the header and the cache agree. *)
Theorem authorization_header_is_the_cached_token (env : Env) (w w' : World) :
  (forall af,
     ~ explicitly_empty af ->
     on_request env af w = (Returned tt, w') ->
     exists t, _token (self w') = Some t
               /\ headers (http_request (request w')) !! "Authorization"
                  = Some ("Bearer " +:+ token t))
  /\ (forall scopes kwargs,
        authorize_request env scopes kwargs w = (Returned tt, w') ->
        exists t, _token (self w') = Some t
                  /\ headers (http_request (request w')) !! "Authorization"
                     = Some ("Bearer " +:+ token t)).
Proof.
  split.
  - unfold explicitly_empty. intros af Hne Hrun.
    destruct af as [[|f l]|]; [done| |]; revert Hrun; run_policy;
      intros [= <-]; simpl; simplify_eq; try congruence; eexists;
      (split; [first [reflexivity|eassumption]|]);
      by rewrite lookup_insert_eq.
  - intros scopes kwargs Hrun. revert Hrun; run_policy;
      intros [= <-]; simpl; simplify_eq; try congruence; eexists;
      (split; [first [reflexivity|eassumption]|]);
      by rewrite lookup_insert_eq.
Qed.

Lemma authorization_header_is_the_cached_token_witness :
  exists t,
    _token (self (snd (on_request (Demo.env (Demo.always Demo.ok)) None
                         Demo.fresh_start))) = Some t
    /\ headers (http_request (request
         (snd (on_request (Demo.env (Demo.always Demo.ok)) None
                 Demo.fresh_start)))) !! "Authorization"
       = Some ("Bearer " +:+ token t).
Proof.
  destruct (authorization_header_is_the_cached_token
              (Demo.env (Demo.always Demo.ok)) Demo.fresh_start
              (snd (on_request (Demo.env (Demo.always Demo.ok)) None
                      Demo.fresh_start))) as [Hon _].
  apply (Hon None).
  - unfold explicitly_empty. discriminate.
  - vm_compute. reflexivity.
Defined.

(** ** The errors *)

Lemma on_request_raises (env : Env) (af : AuthFlows) (w : World) (e : Exn) :
  fst (on_request env af w) = Raised e -> raised_by_authorization e.
Proof.
  unfold raised_by_authorization.
  destruct af as [[|f l]|]; run_policy; intros [= <-];
    simplify_eq; try congruence; eauto.
Qed.

Lemma authorize_request_raises
    (env : Env) (scopes : list string) (kwargs : gmap string PyValue)
    (w : World) (e : Exn) :
  fst (authorize_request env scopes kwargs w) = Raised e ->
  exists reason, e = CredentialError reason.
Proof. run_policy; intros [= <-]; simplify_eq; try congruence; eauto. Qed.

(** ** [send] with the hooks of the class *)

(** What follows the authorization step, with the hooks of the class. *)
Lemma class_tail (env : Env) (w1 : World) :
  match next_send env (forwards (trace w1)) (request w1) with
  | inl reason =>
      exists w',
        (response <- forward (hooks := AsyncBearerTokenCredentialPolicy) env ;;
         handle_response env response) w1
        = (Raised (NextPolicyError reason), w')
        /\ self w' = self w1 /\ request w' = request w1
        /\ trace w' = trace w1
             ++ EvNextSend (request w1)
                :: match reason with
                   | ExceptionRaised _ => [EvOnException]
                   | BaseExceptionRaised _ => []
                   end
  | inr r =>
      exists w',
        (response <- forward (hooks := AsyncBearerTokenCredentialPolicy) env ;;
         handle_response env response) w1
        = (Returned r, w')
        /\ request w' = request w1
        /\ _lock_instance (self w') = _lock_instance (self w1)
        /\ _scopes (self w') = _scopes (self w1)
        /\ _auth_flows (self w') = _auth_flows (self w1)
        /\ if (status_code (http_response r) =? 401)%Z then
             _token (self w') = None
             /\ trace w' = trace w1
                  ++ [EvNextSend (request w1); EvOnResponse; EvSetToken None]
                  ++ (if bool_decide ("WWW-Authenticate"
                                      ∈ dom (response_headers (http_response r)))
                      then [EvOnChallenge] else [])
           else
             _token (self w') = _token (self w1)
             /\ trace w' = trace w1 ++ [EvNextSend (request w1); EvOnResponse]
  end.
Proof.
  unfold forward, handle_response, on_challenge, on_response, on_exception,
    AsyncBearerTokenCredentialPolicy.
  unfold_policy. simpl.
  destruct (next_send env _ _) as [[reason|reason]|r]; simpl.
  - eexists. split; [reflexivity|]. simpl. by rewrite <- app_assoc.
  - eexists. split; [reflexivity|]. done.
  - destruct (status_code (http_response r) =? 401)%Z; simpl;
      [destruct (bool_decide _); simpl|];
      (eexists; split; [reflexivity|]); simpl;
      rewrite <- ?app_assoc; done.
Qed.

Lemma class_send_after_authorize (env : Env) (w w1 : World) :
  send_authorize env w = (Returned tt, w1) ->
  send (hooks := AsyncBearerTokenCredentialPolicy) env w
  = (response <- forward (hooks := AsyncBearerTokenCredentialPolicy) env ;;
     handle_response env response) w1.
Proof. intros H1. rewrite send_eq. unfold bind at 1. by rewrite H1. Qed.

Lemma class_send_not_authorized (env : Env) (w w1 : World) (e : Exn) :
  send_authorize env w = (Raised e, w1) ->
  send (hooks := AsyncBearerTokenCredentialPolicy) env w = (Raised e, w1).
Proof. intros H1. rewrite send_eq. unfold bind at 1. by rewrite H1. Qed.

(** X5.  The calls raise nothing but what their collaborators raise:
    [on_request] the transport-security error or the error of the
    credential, [authorize_request] the error of the credential, [send] of
    the class one of those or the error of the next policy.  Reading
    [.token] of the cached token never fails. *)
Theorem errors_come_from_collaborators (env : Env) (w : World) (e : Exn) :
  (forall af, fst (on_request env af w) = Raised e -> raised_by_authorization e)
  /\ (forall scopes kwargs,
        fst (authorize_request env scopes kwargs w) = Raised e ->
        exists reason, e = CredentialError reason)
  /\ (fst (send (hooks := AsyncBearerTokenCredentialPolicy) env w) = Raised e ->
      raised_by_authorization e \/ exists reason, e = NextPolicyError reason).
Proof.
  split; [|split].
  - intros af. apply on_request_raises.
  - intros scopes kwargs. apply authorize_request_raises.
  - destruct (send_authorize env w) as [[[]|e'] w1] eqn:H1.
    + rewrite (class_send_after_authorize env w w1 H1).
      pose proof (class_tail env w1) as Htail.
      destruct (next_send env _ _) as [reason|r];
        destruct Htail as (w' & -> & _); simpl; [|done].
      intros [= <-]. right. by exists reason.
    + rewrite (class_send_not_authorized env w w1 e' H1). simpl.
      intros [= <-]. left.
      rewrite send_authorize_eq in H1.
      apply (on_request_raises env (effective_auth_flows w)
               (without_auth_flows_option w)). by rewrite H1.
Qed.

(** X6.  When the next policy raises an [Exception], [send] calls
    [on_exception] and raises the same error again, or what [on_exception]
    raises; when it raises a [BaseException] that is not an [Exception],
    such as [asyncio.CancelledError], [on_exception] is not called and the
    error goes through.  Either way [on_response] is not called and nothing
    is sent again: with the hooks of the class the policy, with the token
    the authorization step cached, is as that step left it. *)
Theorem forwarding_error_is_raised_again
    (env : Env) (h : Hooks) (w w1 : World) (reason : Raise) :
  send_authorize env w = (Returned tt, w1) ->
  next_send env (forwards (trace w1)) (request w1) = inl reason ->
  match reason with
  | ExceptionRaised _ =>
      send (hooks := h) env w
      = match on_exception
                (snd (emit EvOnException
                        (snd (emit (EvNextSend (request w1)) w1)))) with
        | (Returned _, w') => (Raised (NextPolicyError reason), w')
        | (Raised e', w') => (Raised e', w')
        end
  | BaseExceptionRaised _ =>
      send (hooks := h) env w
      = (Raised (NextPolicyError reason), snd (emit (EvNextSend (request w1)) w1))
  end
  /\ exists w',
       send (hooks := AsyncBearerTokenCredentialPolicy) env w
       = (Raised (NextPolicyError reason), w')
       /\ self w' = self w1
       /\ request w' = request w1
       /\ trace w' = trace w1
            ++ EvNextSend (request w1)
               :: match reason with
                  | ExceptionRaised _ => [EvOnException]
                  | BaseExceptionRaised _ => []
                  end.
Proof.
  intros H1 Hnext. split.
  - destruct reason as [reason|reason];
      rewrite send_eq; unfold bind at 1; rewrite H1;
      unfold forward, try_except_reraise, self_next_send, bind, emit;
      rewrite Hnext; simpl; [|done].
    by destruct (on_exception _) as [[[]|e'] w'].
  - rewrite (class_send_after_authorize env w w1 H1).
    pose proof (class_tail env w1) as Htail. by rewrite Hnext in Htail.
Qed.

Lemma forwarding_error_is_raised_again_witness :
  exists w',
    send Faulty.next_policy Demo.fresh_start
    = (Raised (NextPolicyError (ExceptionRaised "connection refused")), w')
    /\ self w' = self (snd (send_authorize Faulty.next_policy Demo.fresh_start))
    /\ request w'
       = request (snd (send_authorize Faulty.next_policy Demo.fresh_start))
    /\ trace w'
       = trace (snd (send_authorize Faulty.next_policy Demo.fresh_start))
         ++ [EvNextSend
               (request (snd (send_authorize Faulty.next_policy Demo.fresh_start)));
             EvOnException].
Proof.
  destruct (forwarding_error_is_raised_again Faulty.next_policy
              AsyncBearerTokenCredentialPolicy Demo.fresh_start
              (snd (send_authorize Faulty.next_policy Demo.fresh_start))
              (ExceptionRaised "connection refused")) as [_ Hclass].
  - vm_compute. reflexivity.
  - reflexivity.
  - exact Hclass.
Defined.

(** X7.  A response whose status is not 401 is returned as it is by [send]
    of the class, after one forwarding, and the cached token stays: only a
    401 empties the cache. *)
Theorem other_status_keeps_the_token
    (env : Env) (w w1 : World) (r : PipelineResponse) :
  send_authorize env w = (Returned tt, w1) ->
  next_send env (forwards (trace w1)) (request w1) = inr r ->
  status_code (http_response r) <> 401%Z ->
  exists w',
    send (hooks := AsyncBearerTokenCredentialPolicy) env w = (Returned r, w')
    /\ _token (self w') = _token (self w1)
    /\ request w' = request w1
    /\ trace w' = trace w1 ++ [EvNextSend (request w1); EvOnResponse]
    /\ forwards (trace w') = forwards (trace w) + 1.
Proof.
  intros H1 Hnext Hstatus. rewrite (class_send_after_authorize env w w1 H1).
  pose proof (class_tail env w1) as Htail. rewrite Hnext in Htail.
  apply Z.eqb_neq in Hstatus. rewrite Hstatus in Htail.
  destruct Htail as (w' & Hrun & Hreq & _ & _ & _ & Htok & Htr).
  exists w'. repeat split; try done.
  pose proof (send_authorize_forwards env w) as Ha. rewrite H1 in Ha. simpl in Ha.
  rewrite Htr, forwards_app, Ha. by cbn.
Qed.

Lemma other_status_keeps_the_token_witness :
  exists w',
    send (Demo.env (Demo.always (Demo.a_response 403 ∅))) Demo.fresh_start
    = (Returned (Demo.a_response 403 ∅), w')
    /\ _token (self w') = Some Demo.a_token.
Proof.
  destruct (other_status_keeps_the_token
              (Demo.env (Demo.always (Demo.a_response 403 ∅))) Demo.fresh_start
              (snd (send_authorize (Demo.env (Demo.always (Demo.a_response 403 ∅)))
                      Demo.fresh_start))
              (Demo.a_response 403 ∅))
    as (w' & Hrun & Htok & _).
  - vm_compute. reflexivity.
  - reflexivity.
  - vm_compute. discriminate.
  - exists w'. split; [exact Hrun|]. rewrite Htok. vm_compute. reflexivity.
Defined.

Lemma errors_come_from_collaborators_witness :
  raised_by_authorization (CredentialError "credential unavailable").
Proof.
  destruct (errors_come_from_collaborators
              (Faulty.credential (Demo.always Demo.ok)) Demo.fresh_start
              (CredentialError "credential unavailable")) as [Hon _].
  apply (Hon None). vm_compute. reflexivity.
Defined.

(** ** [on_request], case by case *)

Ltac normalize_fetches :=
  repeat match goal with
    | H : context [fetches (_ ++ _)] |- _ =>
        rewrite fetches_app in H; cbn [fetches List.filter is_fetch length] in H;
        rewrite ?Nat.add_0_r in H
    end.

Ltac rewrite_cached :=
  repeat match goal with
    | H : _token (self _) = _ |- _ => progress (rewrite H in * |-)
    | H : get_token_info _ _ _ _ = _ |- _ => progress (rewrite H in * |-)
    end.

(** X8.  When the credential raises in [on_request], the error is raised
    again after the lock was released; the cached token and the request are
    as they were, and the credential was asked once, with the scopes of the
    policy and the options made of the flows. *)
Theorem credential_error_changes_nothing
    (env : Env) (af : AuthFlows) (w : World) (reason : string) :
  fst (on_request env af w) = Raised (CredentialError reason) ->
  _token (self (snd (on_request env af w))) = _token (self w)
  /\ request (snd (on_request env af w)) = request w
  /\ held_after false (new_events w (snd (on_request env af w))) = false
  /\ fetches (trace (snd (on_request env af w))) = fetches (trace w) + 1
  /\ get_token_info env (fetches (trace w)) (_scopes (self w))
       (on_request_options af) = inl reason.
Proof.
  intros Hraise.
  assert (exists d, trace (snd (on_request env af w)) = trace w ++ d
                    /\ held_after false d = false /\ fetches d = 1
                    /\ _token (self (snd (on_request env af w))) = _token (self w)
                    /\ request (snd (on_request env af w)) = request w
                    /\ get_token_info env (fetches (trace w)) (_scopes (self w))
                         (on_request_options af) = inl reason)
    as (d & Hd & Hheld & Hfetch & Htok & Hreq & Hget).
  { revert Hraise.
    destruct af as [[|f l]|]; run_policy; intros [= <-]; simplify_eq;
      normalize_fetches;
      (eexists; split; [trace_delta|]); repeat split; done. }
  rewrite (new_events_app _ _ _ Hd), Hd, fetches_app, Hfetch. done.
Qed.

Lemma credential_error_changes_nothing_witness :
  _token (self (snd (on_request (Faulty.credential (Demo.always Demo.ok)) None
                       Demo.fresh_start)))
  = _token (self Demo.fresh_start)
  /\ request (snd (on_request (Faulty.credential (Demo.always Demo.ok)) None
                    Demo.fresh_start))
     = request Demo.fresh_start
  /\ held_after false
       (new_events Demo.fresh_start
          (snd (on_request (Faulty.credential (Demo.always Demo.ok)) None
                  Demo.fresh_start)))
     = false
  /\ fetches (trace (snd (on_request (Faulty.credential (Demo.always Demo.ok)) None
                           Demo.fresh_start)))
     = fetches (trace Demo.fresh_start) + 1
  /\ get_token_info (Faulty.credential (Demo.always Demo.ok))
       (fetches (trace Demo.fresh_start)) (_scopes (self Demo.fresh_start))
       (on_request_options None)
     = inl "credential unavailable".
Proof.
  apply (credential_error_changes_nothing
           (Faulty.credential (Demo.always Demo.ok)) None Demo.fresh_start
           "credential unavailable").
  vm_compute. reflexivity.
Defined.

(** X9.  With a cached token that does not need to be renewed, [on_request]
    on a secure target only reads the clock, once, and writes the header
    from that token: no lock is taken, the credential is not asked, the
    policy is as it was. *)
Theorem cached_token_is_reused
    (env : Env) (af : AuthFlows) (w : World) (t : AccessTokenInfo) :
  ~ explicitly_empty af ->
  secure_transport env (http_request (request w)) = true ->
  _token (self w) = Some t ->
  need_new_token_at (Some t) (clock env (ticks w)) = false ->
  exists w',
    on_request env af w = (Returned tt, w')
    /\ self w' = self w
    /\ trace w' = trace w
    /\ ticks w' = S (ticks w)
    /\ headers (http_request (request w')) !! "Authorization"
       = Some ("Bearer " +:+ token t).
Proof.
  unfold explicitly_empty. intros Hne Hsec Htok Hfresh.
  destruct af as [[|f l]|]; [done| |]; unfold_policy; simpl;
    rewrite Hsec, Htok; simpl; rewrite Htok, Hfresh; simpl; rewrite Htok; simpl;
    (eexists; split; [reflexivity|]); simpl;
    repeat split; by rewrite lookup_insert_eq.
Qed.

Lemma cached_token_is_reused_witness :
  exists w',
    on_request (Demo.env (Demo.always Demo.ok)) None (Demo.cached Demo.a_token)
    = (Returned tt, w')
    /\ self w' = self (Demo.cached Demo.a_token)
    /\ trace w' = trace (Demo.cached Demo.a_token)
    /\ ticks w' = S (ticks (Demo.cached Demo.a_token))
    /\ headers (http_request (request w')) !! "Authorization"
       = Some ("Bearer " +:+ token Demo.a_token).
Proof.
  apply (cached_token_is_reused (Demo.env (Demo.always Demo.ok)) None
           (Demo.cached Demo.a_token) Demo.a_token).
  - unfold explicitly_empty. discriminate.
  - reflexivity.
  - reflexivity.
  - vm_compute. reflexivity.
Defined.

(** With no cached token, or one that needs to be renewed, and a clock that
    does not go back between the two checks, [on_request] asks the
    credential exactly once, whatever the credential answers. *)
Lemma on_request_stale_fetches (env : Env) (af : AuthFlows) (w : World) :
  ~ explicitly_empty af ->
  secure_transport env (http_request (request w)) = true ->
  need_new_token_at (_token (self w)) (clock env (ticks w)) = true ->
  (clock env (ticks w) <= clock env (S (ticks w)))%Q ->
  fetches (trace (snd (on_request env af w))) = fetches (trace w) + 1.
Proof.
  unfold explicitly_empty. intros Hne Hsec Hstale Hclock.
  pose proof (need_new_token_at_mono _ _ _ Hclock Hstale) as Hstale'.
  assert (exists d, trace (snd (on_request env af w)) = trace w ++ d
                    /\ fetches d = 1) as (d & -> & Hd);
    [|by rewrite fetches_app, Hd].
  destruct af as [[|f l]|]; [done| |]; run_policy; simplify_eq;
    try congruence; (eexists; split; [trace_delta|]); done.
Qed.

(** X10.  With no cached token, or one that needs to be renewed, and a
    clock that does not go back between the two checks, [on_request] on a
    secure target asks the credential once, with the scopes of the policy
    and the options made of the flows; the token the credential returns
    replaces the cached one and is the one of the header. *)
Theorem stale_token_is_replaced
    (env : Env) (af : AuthFlows) (w : World) (t' : AccessTokenInfo) :
  ~ explicitly_empty af ->
  secure_transport env (http_request (request w)) = true ->
  need_new_token_at (_token (self w)) (clock env (ticks w)) = true ->
  (clock env (ticks w) <= clock env (S (ticks w)))%Q ->
  get_token_info env (fetches (trace w)) (_scopes (self w))
    (on_request_options af) = inr t' ->
  exists w',
    on_request env af w = (Returned tt, w')
    /\ _token (self w') = Some t'
    /\ headers (http_request (request w')) !! "Authorization"
       = Some ("Bearer " +:+ token t')
    /\ fetches (trace w') = fetches (trace w) + 1.
Proof.
  unfold explicitly_empty. intros Hne Hsec Hstale Hclock Hget.
  pose proof (on_request_stale_fetches env af w Hne Hsec Hstale Hclock) as Hcount.
  pose proof (need_new_token_at_mono _ _ _ Hclock Hstale) as Hstale'.
  exists (snd (on_request env af w)).
  split; [|split; [|split; [|done]]]; clear Hcount;
    destruct af as [[|f l]|]; try done; run_policy; simplify_eq;
    normalize_fetches; rewrite_cached; simplify_eq; try congruence;
    by rewrite ?lookup_insert_eq.
Qed.

Lemma stale_token_is_replaced_witness :
  exists w',
    on_request (Demo.env (Demo.always Demo.ok)) None
      (Demo.cached {| token := "old"; expires_on := 1200; refresh_on := None |})
    = (Returned tt, w')
    /\ _token (self w') = Some Demo.a_token
    /\ headers (http_request (request w')) !! "Authorization"
       = Some ("Bearer " +:+ token Demo.a_token)
    /\ fetches (trace w')
       = fetches (trace (Demo.cached
                           {| token := "old"; expires_on := 1200;
                              refresh_on := None |})) + 1.
Proof.
  apply (stale_token_is_replaced (Demo.env (Demo.always Demo.ok)) None
           (Demo.cached {| token := "old"; expires_on := 1200; refresh_on := None |})
           Demo.a_token).
  - unfold explicitly_empty. discriminate.
  - reflexivity.
  - vm_compute. reflexivity.
  - vm_compute. discriminate.
  - reflexivity.
Defined.

(** ** The lock and the setup of the policy *)

Lemma lock_creations_app (tr d : list Event) :
  lock_creations (tr ++ d) = lock_creations tr + lock_creations d.
Proof. unfold lock_creations. by rewrite List.filter_app, length_app. Qed.

Lemma held_after_app (held : bool) (d1 d2 : list Event) :
  held_after held (d1 ++ d2) = held_after (held_after held d1) d2.
Proof.
  revert held. induction d1 as [|e d1 IH]; intros held; [done|].
  destruct e; simpl; by rewrite ?IH.
Qed.

Lemma keeps_setup_refl (w : World) : keeps_setup w w.
Proof. unfold keeps_setup. destruct (_lock_instance (self w)); auto. Qed.

Lemma keeps_setup_trans (w1 w2 w3 : World) :
  keeps_setup w1 w2 -> keeps_setup w2 w3 -> keeps_setup w1 w3.
Proof.
  unfold keeps_setup. intros (Hs & Hf & Hl) (Hs' & Hf' & Hl').
  split; [congruence|]. split; [congruence|].
  destruct (_lock_instance (self w1)) as [l|].
  - destruct Hl as [Hl Hc]. rewrite Hl in Hl'. destruct Hl' as [-> ->]. done.
  - destruct Hl as [[Hl Hc]|[Hl Hc]]; rewrite Hl in Hl'.
    + destruct Hl' as [[-> ->]|[-> ->]]; [left|right]; by rewrite Hc.
    + destruct Hl' as [-> ->]. right. by rewrite Hc.
Qed.

Lemma on_request_keeps_setup (env : Env) (af : AuthFlows) (w : World) :
  keeps_setup w (snd (on_request env af w)).
Proof.
  unfold keeps_setup.
  destruct af as [[|f l]|]; run_policy; rewrite ?lock_creations_app; cbn;
    rewrite ?Nat.add_0_r; auto.
Qed.

Lemma authorize_request_keeps_setup
    (env : Env) (scopes : list string) (kwargs : gmap string PyValue) (w : World) :
  keeps_setup w (snd (authorize_request env scopes kwargs w)).
Proof.
  unfold keeps_setup.
  run_policy; rewrite ?lock_creations_app; cbn; rewrite ?Nat.add_0_r; auto.
Qed.

Lemma class_tail_keeps_setup (env : Env) (w1 : World) :
  keeps_setup w1
    (snd ((response <- forward (hooks := AsyncBearerTokenCredentialPolicy) env ;;
           handle_response env response) w1)).
Proof.
  pose proof (class_tail env w1) as Htail. unfold keeps_setup.
  destruct (next_send env _ _) as [reason|r].
  - destruct Htail as (w' & -> & Hself & _ & Htr). simpl.
    rewrite Hself, Htr, lock_creations_app.
    assert (lock_creations
              (EvNextSend (request w1)
               :: match reason with
                  | ExceptionRaised _ => [EvOnException]
                  | BaseExceptionRaised _ => []
                  end) = 0) as -> by (by destruct reason).
    rewrite Nat.add_0_r.
    destruct (_lock_instance (self w1)); auto.
  - destruct Htail as (w' & -> & _ & Hl & Hs & Hf & Hrest). simpl.
    rewrite Hl, Hs, Hf.
    assert (lock_creations (trace w') = lock_creations (trace w1)) as ->.
    { destruct (status_code (http_response r) =? 401)%Z;
        destruct Hrest as [_ ->]; rewrite ?lock_creations_app;
        [destruct (bool_decide _)|]; cbn; lia. }
    destruct (_lock_instance (self w1)); auto.
Qed.

Lemma class_send_keeps_setup (env : Env) (w : World) :
  keeps_setup w (snd (send (hooks := AsyncBearerTokenCredentialPolicy) env w)).
Proof.
  pose proof (on_request_keeps_setup env (effective_auth_flows w)
                (without_auth_flows_option w)) as Hauth.
  rewrite <- send_authorize_eq in Hauth.
  change (keeps_setup (without_auth_flows_option w) (snd (send_authorize env w)))
    with (keeps_setup w (snd (send_authorize env w))) in Hauth.
  destruct (send_authorize env w) as [[[]|e] w1] eqn:H1.
  - rewrite (class_send_after_authorize env w w1 H1).
    apply (keeps_setup_trans _ w1); [done|]. apply class_tail_keeps_setup.
  - by rewrite (class_send_not_authorized env w w1 e H1).
Qed.

(** X11.  Over any sequence of calls of [on_request] and [send] of the
    class on one policy, and over a call of [authorize_request], the scopes
    and the flows of the policy stay as [__init__] set them, and the lock
    is created at most once: when there is none at the first use, and never
    again once there is one. *)
Theorem lock_is_created_at_most_once (env : Env) (w : World) :
  (forall cs,
     keeps_setup w
       (run_calls (hooks := AsyncBearerTokenCredentialPolicy) env cs w))
  /\ (forall scopes kwargs,
        keeps_setup w (snd (authorize_request env scopes kwargs w)))
  /\ (forall cs,
        lock_creations
          (trace (run_calls (hooks := AsyncBearerTokenCredentialPolicy) env cs w))
        <= lock_creations (trace w)
           + match _lock_instance (self w) with Some _ => 0 | None => 1 end).
Proof.
  assert (forall cs w0,
            keeps_setup w0
              (run_calls (hooks := AsyncBearerTokenCredentialPolicy) env cs w0))
    as Hseq.
  { induction cs as [|c cs IH]; intros w0; [apply keeps_setup_refl|].
    simpl. apply (keeps_setup_trans _ (run_call env c w0)); [|apply IH].
    destruct c as [r af|r]; simpl.
    - exact (on_request_keeps_setup env af (with_request r w0)).
    - exact (class_send_keeps_setup env (with_request r w0)). }
  split; [intros cs; apply Hseq|].
  split; [intros scopes kwargs; apply authorize_request_keeps_setup|].
  intros cs. destruct (Hseq cs w) as (_ & _ & Hl).
  destruct (_lock_instance (self w)); [destruct Hl as [_ ->]; lia|].
  destruct Hl as [[_ ->]|[_ ->]]; lia.
Qed.

(** X12.  No call leaves the lock held: after [on_request], after
    [authorize_request] and after [send] of the class, whether they return
    or raise, the last acquire of the call was followed by a release. *)
Theorem lock_is_released (env : Env) (w : World) :
  (forall af,
     held_after false (new_events w (snd (on_request env af w))) = false)
  /\ (forall scopes kwargs,
        held_after false
          (new_events w (snd (authorize_request env scopes kwargs w))) = false)
  /\ held_after false
       (new_events w
          (snd (send (hooks := AsyncBearerTokenCredentialPolicy) env w)))
     = false.
Proof.
  split; [|split].
  - intros af. destruct (on_request_events env af w) as (d & Hd & _ & Hheld & _).
    by rewrite (new_events_app _ _ _ Hd).
  - intros scopes kwargs.
    destruct (authorize_request_events env scopes kwargs w)
      as (d & Hd & _ & Hheld & _).
    by rewrite (new_events_app _ _ _ Hd).
  - destruct (on_request_events env (effective_auth_flows w)
                (without_auth_flows_option w)) as (d & Hd & _ & Hheld & _).
    rewrite <- send_authorize_eq in Hd.
    change (trace (without_auth_flows_option w)) with (trace w) in Hd.
    destruct (send_authorize env w) as [[[]|e] w1] eqn:H1; simpl in Hd.
    + rewrite (class_send_after_authorize env w w1 H1).
      pose proof (class_tail env w1) as Htail.
      destruct (next_send env _ _) as [reason|r].
      * destruct Htail as (w' & -> & _ & _ & Htr). simpl.
        rewrite Hd, <- app_assoc in Htr.
        rewrite (new_events_app _ _ _ Htr), held_after_app, Hheld.
        by destruct reason.
      * destruct Htail as (w' & -> & _ & _ & _ & _ & Hrest). simpl.
        destruct (status_code (http_response r) =? 401)%Z;
          destruct Hrest as [_ Htr]; rewrite Hd, <- app_assoc in Htr;
          rewrite (new_events_app _ _ _ Htr), held_after_app, Hheld;
          [by destruct (bool_decide _)|done].
    + rewrite (class_send_not_authorized env w w1 e H1). simpl.
      by rewrite (new_events_app _ _ _ Hd).
Qed.

(** ** The request and the cache across calls *)

Lemma send_authorize_request (env : Env) (w : World) :
  same_but_authorization (request (without_auth_flows_option w))
    (request (snd (send_authorize env w))).
Proof. rewrite send_authorize_eq. apply on_request_frame. Qed.

Lemma class_tail_request (env : Env) (w1 : World) :
  request (snd ((response <- forward (hooks := AsyncBearerTokenCredentialPolicy) env ;;
                 handle_response env response) w1))
  = request w1.
Proof.
  pose proof (class_tail env w1) as Htail.
  destruct (next_send env _ _) as [reason|r].
  - destruct Htail as (w' & Hrun & _ & Hreq & _). by rewrite Hrun.
  - destruct Htail as (w' & Hrun & Hreq & _). by rewrite Hrun.
Qed.

Lemma class_send_request (env : Env) (w : World) :
  same_but_authorization (request (without_auth_flows_option w))
    (request (snd (send (hooks := AsyncBearerTokenCredentialPolicy) env w))).
Proof.
  pose proof (send_authorize_request env w) as Hauth.
  destruct (send_authorize env w) as [[[]|e] w1] eqn:H1.
  - rewrite (class_send_after_authorize env w w1 H1). by rewrite class_tail_request.
  - by rewrite (class_send_not_authorized env w w1 e H1).
Qed.

(** X13.  [send] takes the override out of the options bag of the request
    and leaves the other options: after a [send] of the class, whatever
    its outcome, the request has no [auth_flows] option, so that sending the
    same request again authorizes it with the flows of the policy. *)
Theorem override_is_used_once (env : Env) (w : World) :
  options (context (request
     (snd (send (hooks := AsyncBearerTokenCredentialPolicy) env w))))
  = delete "auth_flows" (options (context (request w)))
  /\ effective_auth_flows
       (snd (send (hooks := AsyncBearerTokenCredentialPolicy) env w))
     = _auth_flows (self w).
Proof.
  destruct (class_send_request env w) as (_ & Hctx & _).
  destruct (class_send_keeps_setup env w) as (_ & Hflows & _).
  assert (options (context (request
            (snd (send (hooks := AsyncBearerTokenCredentialPolicy) env w))))
          = delete "auth_flows" (options (context (request w)))) as Hopts
    by (by rewrite Hctx).
  split; [done|].
  unfold effective_auth_flows. by rewrite Hopts, lookup_delete_eq, Hflows.
Qed.

(** X14.  [send] of the class forwards the request once when the
    authorization step returns, and does not forward it when that step
    raises: a request that could not be authorized is not sent, and the
    class never sends a request twice. *)
Theorem class_forwards_once_if_authorized (env : Env) (w : World) :
  forwards (trace (snd (send (hooks := AsyncBearerTokenCredentialPolicy) env w)))
  = forwards (trace w)
    + match fst (send_authorize env w) with
      | Returned _ => 1
      | Raised _ => 0
      end.
Proof.
  pose proof (send_authorize_forwards env w) as Hauth.
  destruct (send_authorize env w) as [[[]|e] w1] eqn:H1; simpl in *.
  - rewrite (class_send_after_authorize env w w1 H1).
    pose proof (class_tail env w1) as Htail.
    destruct (next_send env _ _) as [reason|r].
    + destruct Htail as (w' & Hrun & _ & _ & Htr). rewrite Hrun. simpl.
      rewrite Htr, forwards_app, Hauth. by destruct reason.
    + destruct Htail as (w' & Hrun & _ & _ & _ & _ & Hrest). rewrite Hrun. simpl.
      destruct (status_code (http_response r) =? 401)%Z;
        destruct Hrest as [_ Htr]; rewrite Htr, !forwards_app, Hauth;
        [destruct (bool_decide _)|]; by cbn.
  - rewrite (class_send_not_authorized env w w1 e H1). simpl. lia.
Qed.

(** X15.  A call that opts out with an empty list of flows still empties
    the cache when it is answered 401: [send] of the class forwards the
    request without asking the credential, returns the 401 and leaves no
    cached token, whatever token other calls had cached. *)
Theorem opted_out_401_empties_the_cache
    (env : Env) (w : World) (r : PipelineResponse) :
  explicitly_empty (effective_auth_flows w) ->
  next_send env (forwards (trace w)) (request (without_auth_flows_option w))
  = inr r ->
  status_code (http_response r) = 401%Z ->
  exists w',
    send (hooks := AsyncBearerTokenCredentialPolicy) env w = (Returned r, w')
    /\ _token (self w') = None
    /\ fetches (trace w') = fetches (trace w)
    /\ request w' = request (without_auth_flows_option w).
Proof.
  unfold explicitly_empty. intros Hempty Hnext H401.
  assert (send_authorize env w = (Returned tt, without_auth_flows_option w)) as H1
    by (by rewrite send_authorize_eq, Hempty).
  rewrite (class_send_after_authorize env w _ H1).
  pose proof (class_tail env (without_auth_flows_option w)) as Htail.
  change (trace (without_auth_flows_option w)) with (trace w) in Htail.
  rewrite Hnext in Htail. apply Z.eqb_eq in H401. rewrite H401 in Htail.
  destruct Htail as (w' & Hrun & Hreq & _ & _ & _ & Htok & Htr).
  exists w'. repeat split; try done.
  rewrite Htr, !fetches_app. destruct (bool_decide _); by cbn.
Qed.

Lemma opted_out_401_empties_the_cache_witness :
  exists w',
    send (Demo.env (Demo.always Demo.unauthorized))
      (with_request
         (Demo.a_request "https://example.org/" {[ "auth_flows" := Some [] ]})
         (Demo.cached Demo.a_token))
    = (Returned Demo.unauthorized, w')
    /\ _token (self w') = None
    /\ fetches (trace w')
       = fetches (trace (with_request
                           (Demo.a_request "https://example.org/"
                              {[ "auth_flows" := Some [] ]})
                           (Demo.cached Demo.a_token)))
    /\ request w'
       = request (without_auth_flows_option
                    (with_request
                       (Demo.a_request "https://example.org/"
                          {[ "auth_flows" := Some [] ]})
                       (Demo.cached Demo.a_token))).
Proof.
  apply (opted_out_401_empties_the_cache
           (Demo.env (Demo.always Demo.unauthorized))
           (with_request
              (Demo.a_request "https://example.org/" {[ "auth_flows" := Some [] ]})
              (Demo.cached Demo.a_token))
           Demo.unauthorized).
  - vm_compute. reflexivity.
  - reflexivity.
  - reflexivity.
Defined.

(** With an empty cache [on_request] on a secure target asks the
    credential, once, whatever the clock says. *)
Lemma on_request_empty_cache_fetches (env : Env) (af : AuthFlows) (w : World) :
  ~ explicitly_empty af ->
  secure_transport env (http_request (request w)) = true ->
  _token (self w) = None ->
  fetches (trace (snd (on_request env af w))) = fetches (trace w) + 1.
Proof.
  unfold explicitly_empty. intros Hne Hsec Htok.
  assert (exists d, trace (snd (on_request env af w)) = trace w ++ d
                    /\ fetches d = 1) as (d & -> & Hd);
    [|by rewrite fetches_app, Hd].
  destruct af as [[|f l]|]; [done| |]; run_policy; simplify_eq;
    try congruence; (eexists; split; [trace_delta|]); done.
Qed.

(** X16.  After a [send] of the class that was answered 401, the next
    [on_request] on a secure target asks the credential for a new token,
    however long the token that was cached had to live. *)
Theorem token_is_fetched_again_after_401
    (env : Env) (w w1 : World) (r : PipelineResponse)
    (next : PipelineRequest) (af : AuthFlows) :
  send_authorize env w = (Returned tt, w1) ->
  next_send env (forwards (trace w1)) (request w1) = inr r ->
  status_code (http_response r) = 401%Z ->
  ~ explicitly_empty af ->
  secure_transport env (http_request next) = true ->
  fetches (trace (snd (on_request env af
                         (with_request next
                            (snd (send (hooks := AsyncBearerTokenCredentialPolicy)
                                    env w))))))
  = fetches (trace (snd (send (hooks := AsyncBearerTokenCredentialPolicy) env w)))
    + 1.
Proof.
  intros H1 Hnext H401 Hne Hsec.
  destruct (class_send_401 env w w1 r H1 Hnext H401) as (w' & -> & Htok & _).
  simpl. by apply (on_request_empty_cache_fetches env af (with_request next w')).
Qed.

Lemma token_is_fetched_again_after_401_witness :
  fetches (trace (snd (on_request (Demo.env (Demo.always Demo.unauthorized)) None
                         (with_request Demo.secure_request
                            (snd (send (Demo.env (Demo.always Demo.unauthorized))
                                    Demo.fresh_start))))))
  = fetches (trace (snd (send (Demo.env (Demo.always Demo.unauthorized))
                           Demo.fresh_start)))
    + 1.
Proof.
  apply (token_is_fetched_again_after_401
           (Demo.env (Demo.always Demo.unauthorized)) Demo.fresh_start
           (snd (send_authorize (Demo.env (Demo.always Demo.unauthorized))
                   Demo.fresh_start))
           Demo.unauthorized Demo.secure_request None).
  - vm_compute. reflexivity.
  - reflexivity.
  - reflexivity.
  - unfold explicitly_empty. discriminate.
  - reflexivity.
Defined.

(** * Calls that overlap *)

(** ** One call alone is the call *)




(** ** What one resumption does *)



Lemma held_after_plain (d : list Event) :
  Forall (fun e => e <> EvAcquire /\ e <> EvRelease) d ->
  forall h, held_after h d = h.
Proof.
  induction d as [|e d IH]; intros Hd h; [done|].
  apply Forall_cons in Hd as [[Ha Hr] Hd].
  destruct e; simpl; try apply IH; done.
Qed.


(** ** What every schedule keeps *)






(** ** Calls one after another *)








(** ** The steady collaborators *)






(** Two calls of [send] on a new policy overlap: both find the cache empty
    and wait for the lock; the first is given the lock and asks the
    credential; when the second is given the lock the token is there, and
    it asks for none. *)
Lemma overlapping_sends_fetch_once :
  trace (shared
           (run_schedule (Steady.env (Demo.always Demo.ok))
              [0; 1; 0; 0; 1; 0; 1]
              (calls_made [CallSend Demo.secure_request;
                           CallSend Demo.secure_request]
                 Demo.fresh_start)))
  = [EvLockCreated; EvAcquire;
     EvGetTokenInfo ["https://example.org/.default"] ∅;
     EvSetToken (Some Demo.a_token); EvRelease;
     EvNextSend
       {| http_request :=
            {| url := "https://example.org/";
               headers := {[ "Authorization" := "Bearer secret" ]} |};
          context := {| options := ∅ |} |};
     EvAcquire; EvRelease;
     EvNextSend
       {| http_request :=
            {| url := "https://example.org/";
               headers := {[ "Authorization" := "Bearer secret" ]} |};
          context := {| options := ∅ |} |};
     EvOnResponse; EvOnResponse].
Proof. vm_compute. reflexivity. Qed.

(** A task that waits for the lock is not resumed while another holds
    it. *)
Lemma lock_held_task_waits :
  run_schedule (Steady.env (Demo.always Demo.ok)) [0; 1; 0; 1]
    (calls_made [CallSend Demo.secure_request; CallSend Demo.secure_request]
       Demo.fresh_start)
  = run_schedule (Steady.env (Demo.always Demo.ok)) [0; 1; 0]
      (calls_made [CallSend Demo.secure_request; CallSend Demo.secure_request]
         Demo.fresh_start).
Proof. vm_compute. reflexivity. Qed.

